(** * Public transportation network: a shallow embedding of [main.py]

    The Python class [TransportNetwork] keeps a [networkx.MultiGraph] and
    answers route queries with [networkx.shortest_path].  This file embeds

    - the multigraph operations the class calls ([add_node], [add_edge],
      membership, adjacency lookups),
    - [add_station], [add_connection], [_generate_schedule],
    - the closure [weight_function], [_calculate_total_time],
      [_count_transfers] and [find_optimal_route],
    - the search [networkx] runs for a weighted source/target query
      (bidirectional Dijkstra), with an explicit iteration budget.

    Conventions.  Python dictionaries keep insertion order and the code
    iterates over them, so they are association lists with unique keys.
    Exceptions are values of [exn] carried by [result].  Station identifiers
    and transport types are strings, travel times are integers (minutes, as
    in the sample data), preference multipliers and search distances are
    rationals: a float literal stands for the double it denotes, the
    rounding of float products and sums is not modelled, and [float('inf')]
    is the absent value of an [option]. *)

From Stdlib Require Import List String Ascii ZArith QArith Bool Lia Arith.
From Stdlib Require Import Permutation Lqa.
Import ListNotations.

Local Open Scope string_scope.
Local Open Scope list_scope.

(** ** Exceptions and results *)

Inductive exn : Type :=
| ValueError (msg : string)
| KeyError (key : string)
| NetworkXNoPath (msg : string)
| NodeNotFound (msg : string)
| BudgetExhausted.

Inductive result (A : Type) : Type :=
| Ok (a : A)
| Raise (e : exn).

Arguments Ok {A} a.
Arguments Raise {A} e.

Definition bind {A B : Type} (r : result A) (k : A -> result B) : result B :=
  match r with
  | Ok a => k a
  | Raise e => Raise e
  end.

Notation "x <- r ;; k" := (bind r (fun x => k))
  (at level 61, r at next level, right associativity).

(** ** Insertion-ordered dictionaries with string keys *)

Section Dict.
Context {V : Type}.

Definition dict := list (string * V).

Fixpoint dict_get (d : dict) (k : string) : option V :=
  match d with
  | [] => None
  | (k', v) :: d' => if String.eqb k k' then Some v else dict_get d' k
  end.

Definition dict_mem (d : dict) (k : string) : bool :=
  match dict_get d k with
  | Some _ => true
  | None => false
  end.

(** [d[k] = v]: overwrite in place, or append a new key at the end. *)
Fixpoint dict_set (d : dict) (k : string) (v : V) : dict :=
  match d with
  | [] => [(k, v)]
  | (k', v') :: d' =>
      if String.eqb k k' then (k', v) :: d' else (k', v') :: dict_set d' k v
  end.

(** [d[k]], raising [KeyError] on a missing key. *)
Definition dict_item (d : dict) (k : string) : result V :=
  match dict_get d k with
  | Some v => Ok v
  | None => Raise (KeyError k)
  end.
End Dict.

Arguments dict V : clear implicits.

(** ** Edge and node attribute dictionaries

    networkx stores attributes in plain dictionaries; the code tests for
    the presence of a key, so every attribute is optional. *)

Record EdgeData : Type := mkEdgeData {
  transport_type : option string;
  travel_time : option Z;
  schedule : option (list string)
}.

Definition empty_edge_data : EdgeData := mkEdgeData None None None.

Definition or_else {A : Type} (new old : option A) : option A :=
  match new with
  | Some _ => new
  | None => old
  end.

(** [old.update(new)] *)
Definition edge_data_update (old new : EdgeData) : EdgeData :=
  mkEdgeData (or_else (transport_type new) (transport_type old))
             (or_else (travel_time new) (travel_time old))
             (or_else (schedule new) (schedule old)).

Record NodeData : Type := mkNodeData {
  capacity : option Z;
  coordinates : option (Q * Q)
}.

Definition empty_node_data : NodeData := mkNodeData None None.

(** ** The multigraph

    [_adj[u][v]] is the key dictionary of the parallel edges between [u]
    and [v].  Edge keys are the integers networkx hands out
    ([new_edge_key]: the number of parallel edges already there); no edge is
    ever removed, so the key dictionary is the list of its values and the key
    is the position.  In Python [_adj[u][v]] and [_adj[v][u]] are one shared
    object; here both entries are written on every change. *)

Definition keydict := list EdgeData.

Record MultiGraph : Type := mkMultiGraph {
  _node : dict NodeData;
  _adj : dict (dict keydict)
}.

Definition empty_graph : MultiGraph := mkMultiGraph [] [].

(** [n in G] *)
Definition has_node (G : MultiGraph) (n : string) : bool := dict_mem (_node G) n.

(** [G.add_node(n, capacity=c, coordinates=xy)] *)
Definition add_node (G : MultiGraph) (n : string) (c : Z) (xy : Q * Q) : MultiGraph :=
  let adj' := if dict_mem (_node G) n then _adj G else dict_set (_adj G) n [] in
  mkMultiGraph (dict_set (_node G) n (mkNodeData (Some c) (Some xy))) adj'.

(** the node-creating prologue of [add_edge] *)
Definition ensure_node (G : MultiGraph) (n : string) : MultiGraph :=
  if dict_mem (_adj G) n then G
  else mkMultiGraph (dict_set (_node G) n empty_node_data) (dict_set (_adj G) n []).

Definition nbrs (G : MultiGraph) (u : string) : dict keydict :=
  match dict_get (_adj G) u with
  | Some d => d
  | None => []
  end.

(** the parallel edges between [u] and [v] (empty when not adjacent) *)
Definition connections (G : MultiGraph) (u v : string) : keydict :=
  match dict_get (nbrs G u) v with
  | Some kd => kd
  | None => []
  end.

Definition set_keydict (adj : dict (dict keydict)) (u v : string) (kd : keydict)
  : dict (dict keydict) :=
  match dict_get adj u with
  | Some d => dict_set adj u (dict_set d v kd)
  | None => adj
  end.

(** [G.add_edge(u, v)] with no key and no attributes; returns the new key. *)
Definition add_edge (G : MultiGraph) (u v : string) : MultiGraph * nat :=
  let G1 := ensure_node G u in
  let G2 := ensure_node G1 v in
  let old := connections G2 u v in
  let key := List.length old in
  let kd := old ++ [empty_edge_data] in
  (mkMultiGraph (_node G2) (set_keydict (set_keydict (_adj G2) u v kd) v u kd), key).

Fixpoint list_update {A : Type} (l : list A) (i : nat) (f : A -> A) : list A :=
  match l, i with
  | [], _ => []
  | x :: l', O => f x :: l'
  | x :: l', S i' => x :: list_update l' i' f
  end.

(** [G[u][v]]: the key dictionary, [KeyError] when [u] is no node or [v] is
    not adjacent to [u]. *)
Definition adj_item (G : MultiGraph) (u v : string) : result keydict :=
  d <- dict_item (_adj G) u ;;
  dict_item d v.

(** [G[u][v][key].update(data)] *)
Definition update_edge (G : MultiGraph) (u v : string) (key : nat) (data : EdgeData)
  : result MultiGraph :=
  kd <- adj_item G u v ;;
  match nth_error kd key with
  | None => Raise (KeyError "key")
  | Some _ =>
      let kd' := list_update kd key (fun old => edge_data_update old data) in
      Ok (mkMultiGraph (_node G) (set_keydict (set_keydict (_adj G) u v kd') v u kd'))
  end.

(** ** The transport network *)

Record TransportNetwork : Type := mkTransportNetwork {
  network : MultiGraph;
  transport_types : list string;
  schedules : dict (list string);
  station_capacity : dict Z
}.

(** [TransportNetwork()] *)
Definition init : TransportNetwork :=
  mkTransportNetwork empty_graph ["Metro"; "Bus"; "Train"] [] [].

Definition is_nil {A : Type} (l : list A) : bool :=
  match l with
  | [] => true
  | _ => false
  end.

(** [add_station]; [rnd] is the pair [random.random()] would draw when no
    coordinates are given. *)
Definition add_station (self : TransportNetwork) (station_id : string) (cap : Z)
    (coords : option (Q * Q)) (rnd : Q * Q) : TransportNetwork :=
  let xy := match coords with Some c => c | None => rnd end in
  mkTransportNetwork (add_node (network self) station_id cap xy)
                     (transport_types self)
                     (schedules self)
                     (dict_set (station_capacity self) station_id cap).

Definition digit (n : nat) : string := String (ascii_of_nat (48 + n)) EmptyString.

Definition two_digits (n : nat) : string := (digit (n / 10) ++ digit (n mod 10))%string.

(** [strftime("%H:%M")] of a time of day given in minutes *)
Definition strftime (minutes : nat) : string :=
  (two_digits (minutes / 60) ++ ":" ++ two_digits (minutes mod 60))%string.

Fixpoint schedule_loop (budget : nat) (current_time end_time frequency : nat) : list string :=
  match budget with
  | O => []
  | S b =>
      if Nat.leb current_time end_time
      then strftime current_time :: schedule_loop b (current_time + frequency) end_time frequency
      else []
  end.

(** [_generate_schedule(start_hour, end_hour, frequency)] for a positive
    frequency: one label per departure, first to last. *)
Definition _generate_schedule (start_hour end_hour frequency : nat) : list string :=
  schedule_loop (S (end_hour * 60)) (start_hour * 60) (end_hour * 60) frequency.

Definition str_in (s : string) (l : list string) : bool :=
  existsb (String.eqb s) l.

(** the text Python prints for a set of strings; the element order of a
    Python set is not fixed, the list order is used here *)
Definition repr_set (l : list string) : string :=
  ("{" ++ String.concat ", " (map (fun s => "'" ++ s ++ "'") l) ++ "}")%string.

Definition invalid_transport_type (self : TransportNetwork) : exn :=
  ValueError ("Invalid transport type. Must be one of " ++ repr_set (transport_types self))%string.

(** the attribute dictionary [add_connection] writes on the new edge;
    [schedule or self._generate_schedule()] takes the default for an absent
    or empty schedule *)
Definition new_edge_data (ttype : string) (ttime : Z) (sched : option (list string))
  : EdgeData :=
  mkEdgeData (Some ttype) (Some ttime)
             (Some match sched with
                   | Some (x :: l) => x :: l
                   | _ => _generate_schedule 5 23 15
                   end).

(** [add_connection]: the outcome together with the network afterwards. *)
Definition add_connection (self : TransportNetwork) (start end_ : string)
    (ttype : string) (ttime : Z) (sched : option (list string))
  : result unit * TransportNetwork :=
  if negb (str_in ttype (transport_types self)) then
    (Raise (invalid_transport_type self), self)
  else
    let '(G1, key) := add_edge (network self) start end_ in
    match update_edge G1 start end_ key (new_edge_data ttype ttime sched) with
    | Ok G2 => (Ok tt, mkTransportNetwork G2 (transport_types self) (schedules self)
                                          (station_capacity self))
    | Raise e => (Raise e, mkTransportNetwork G1 (transport_types self) (schedules self)
                                              (station_capacity self))
    end.

(** ** Metrics derivation *)

Definition Qltb (a b : Q) : bool := negb (Qle_bool b a).

(** [min(cur, w)] where [cur] starts as [float('inf')] *)
Definition min_inf_Q (cur : option Q) (w : Q) : option Q :=
  match cur with
  | None => Some w
  | Some m => if Qltb w m then Some w else Some m
  end.

Definition min_inf_Z (cur : option Z) (w : Z) : option Z :=
  match cur with
  | None => Some w
  | Some m => if (w <? m)%Z then Some w else Some m
  end.

(** [preferences.get(transport_type, 1)] *)
Definition prefs_get (preferences : dict Q) (t : string) : Q :=
  match dict_get preferences t with
  | Some m => m
  | None => 1%Q
  end.

(** [{'Metro': 1, 'Bus': 1.5, 'Train': 1.2}]: the multipliers are the values
    of the literals as doubles; [1.5] is 3/2, and [1.2] is the double next
    to 6/5, 5404319552844595 / 2^52 *)
Definition default_preferences : dict Q :=
  [("Metro", 1%Q); ("Bus", (3 # 2)%Q);
   ("Train", (5404319552844595 # 4503599627370496)%Q)].

(** one round of the loop over the parallel edges in [weight_function] *)
Definition weight_step (preferences : dict Q) (min_weight : option Q) (edge_data : EdgeData)
  : option Q :=
  match transport_type edge_data, travel_time edge_data with
  | Some t, Some time => min_inf_Q min_weight (inject_Z time * prefs_get preferences t)%Q
  | _, _ => min_weight
  end.

Definition hop_weight (preferences : dict Q) (kd : keydict) : Q :=
  match fold_left (weight_step preferences) kd None with
  | Some w => w
  | None => 1%Q
  end.

(** the closure [weight_function(u, v, attrs)]; it ignores [attrs] and reads
    [self.network[u][v]] *)
Definition weight_function (self : TransportNetwork) (preferences : dict Q)
    (u v : string) (attrs : keydict) : result Q :=
  kd <- adj_item (network self) u v ;;
  Ok (hop_weight preferences kd).

(** one round of the loop over the parallel edges in [_calculate_total_time] *)
Definition time_step (min_time : option Z) (edge_data : EdgeData) : option Z :=
  match travel_time edge_data with
  | Some time => min_inf_Z min_time time
  | None => min_time
  end.

Definition hop_time (kd : keydict) : Z :=
  match fold_left time_step kd None with
  | Some m => m
  | None => 0%Z
  end.

(** the loop of [_calculate_total_time] from position [i] on, where [path]
    is what is left of the path from [path[i]] *)
Fixpoint total_time_loop (G : MultiGraph) (path : list string) (total_time : Z) : result Z :=
  match path with
  | u :: (v :: _) as rest =>
      kd <- adj_item G u v ;;
      total_time_loop G rest (total_time + hop_time kd)%Z
  | _ => Ok total_time
  end.

Definition _calculate_total_time (self : TransportNetwork) (path : list string) : result Z :=
  total_time_loop (network self) path 0%Z.

(** Python truth value of the result of [.get('transport_type')] *)
Definition truthy (t : option string) : bool :=
  match t with
  | Some s => negb (String.eqb s "")
  | None => false
  end.

(** [for k in kd: cur = kd[k].get('transport_type'); if cur: break] *)
Fixpoint scan_transport (cur : option string) (kd : keydict) : option string :=
  match kd with
  | [] => cur
  | edge_data :: kd' =>
      let cur' := transport_type edge_data in
      if truthy cur' then cur' else scan_transport cur' kd'
  end.

Definition opt_string_eqb (a b : option string) : bool :=
  match a, b with
  | Some x, Some y => String.eqb x y
  | None, None => true
  | _, _ => false
  end.

Definition is_transfer (current_transport next_transport : option string) : bool :=
  truthy current_transport && truthy next_transport
  && negb (opt_string_eqb current_transport next_transport).

Fixpoint transfers_loop (G : MultiGraph) (path : list string) (transfers : Z) : result Z :=
  match path with
  | a :: (b :: c :: _) as rest =>
      kd1 <- adj_item G a b ;;
      let current_transport := scan_transport None kd1 in
      kd2 <- adj_item G b c ;;
      let next_transport := scan_transport None kd2 in
      transfers_loop G rest
        (if is_transfer current_transport next_transport then transfers + 1 else transfers)%Z
  | _ => Ok transfers
  end.

Definition _count_transfers (self : TransportNetwork) (path : list string) : result Z :=
  transfers_loop (network self) path 0%Z.

(** ** The search: [networkx.shortest_path(G, source, target, weight=f)]

    With a weight and both end points given, [shortest_path] returns the
    path of [bidirectional_dijkstra(G, source, target, f)].  The model
    follows that function statement by statement (the revision that keeps
    the dictionary [paths] of paths found so far).  The two-element lists
    indexed by [dir] are the two [Side]s of the state; the binary heap of
    [heapq] is a bag from which [heappop] takes the least entry, entries
    being ordered by distance and then by the running counter, which is
    unique. *)

Inductive direction : Type := Forward | Backward.

Definition flip (dir : direction) : direction :=
  match dir with
  | Forward => Backward
  | Backward => Forward
  end.

Definition entry : Type := (Q * nat * string)%type.

Definition entry_dist (e : entry) : Q := fst (fst e).
Definition entry_count (e : entry) : nat := snd (fst e).
Definition entry_node (e : entry) : string := snd e.

(** tuple comparison [a < b] *)
Definition entry_lt (a b : entry) : bool :=
  Qltb (entry_dist a) (entry_dist b)
  || (Qeq_bool (entry_dist a) (entry_dist b) && Nat.ltb (entry_count a) (entry_count b)).

Definition heappush (h : list entry) (e : entry) : list entry := e :: h.

Fixpoint heappop (h : list entry) : option (entry * list entry) :=
  match h with
  | [] => None
  | x :: h' =>
      match heappop h' with
      | None => Some (x, [])
      | Some (m, rest) => if entry_lt m x then Some (m, x :: rest) else Some (x, h')
      end
  end.

Record Side : Type := mkSide {
  dists : dict Q;
  paths : dict (list string);
  fringe : list entry;
  seen : dict Q
}.

Record BiState : Type := mkBiState {
  fwd : Side;
  bwd : Side;
  counter : nat;
  finaldist : Q;
  finalpath : list string
}.

Definition side (st : BiState) (dir : direction) : Side :=
  match dir with
  | Forward => fwd st
  | Backward => bwd st
  end.

Definition set_side (st : BiState) (dir : direction) (s : Side) : BiState :=
  match dir with
  | Forward => mkBiState s (bwd st) (counter st) (finaldist st) (finalpath st)
  | Backward => mkBiState (fwd st) s (counter st) (finaldist st) (finalpath st)
  end.

(** side [dir] replaced and one value drawn from the counter *)
Definition advance (st : BiState) (dir : direction) (s : Side) : BiState :=
  let st' := set_side st dir s in
  mkBiState (fwd st') (bwd st') (S (counter st)) (finaldist st) (finalpath st).

Definition get_or {A : Type} (d : dict A) (k : string) (default : A) : A :=
  match dict_get d k with
  | Some a => a
  | None => default
  end.

Definition contradictory : exn :=
  ValueError "Contradictory paths found: negative weights?".

Definition no_path (source target : string) : exn :=
  NetworkXNoPath ("No path between " ++ source ++ " and " ++ target ++ ".")%string.

Section Search.
Variable G : MultiGraph.
(** the weight callable; [None] hides the edge *)
Variable weight : string -> string -> keydict -> result (option Q).
Variables source target : string.

(** the body of [if w in seen[0] and w in seen[1]] *)
Definition meet (st : BiState) (w : string) : result BiState :=
  if dict_mem (seen (fwd st)) w && dict_mem (seen (bwd st)) w then
    let totaldist := (get_or (seen (fwd st)) w 0 + get_or (seen (bwd st)) w 0)%Q in
    if is_nil (finalpath st) || Qltb totaldist (finaldist st) then
      p1 <- dict_item (paths (bwd st)) w ;;
      p0 <- dict_item (paths (fwd st)) w ;;
      Ok (mkBiState (fwd st) (bwd st) (counter st) totaldist (p0 ++ tl (rev p1)))
    else Ok st
  else Ok st.

(** the relaxation of one neighbour [w] of [v], reached over [d] *)
Definition relax (dir : direction) (v : string) (dist : Q) (st : BiState)
    (w : string) (d : keydict) : result BiState :=
  cost <- match dir with
          | Forward => weight v w d
          | Backward => weight w v d
          end ;;
  match cost with
  | None => Ok st
  | Some cost =>
      let s := side st dir in
      let vwLength := (dist + cost)%Q in
      if dict_mem (dists s) w then
        if Qltb vwLength (get_or (dists s) w 0) then Raise contradictory else Ok st
      else if negb (dict_mem (seen s) w) || Qltb vwLength (get_or (seen s) w 0) then
        pv <- dict_item (paths s) v ;;
        let s' := mkSide (dists s)
                         (dict_set (paths s) w (pv ++ [w]))
                         (heappush (fringe s) (vwLength, counter st, w))
                         (dict_set (seen s) w vwLength) in
        meet (advance st dir s') w
      else Ok st
  end.

(** [for w, d in neighs[dir][v].items()] *)
Fixpoint relax_all (dir : direction) (v : string) (dist : Q) (items : dict keydict)
    (st : BiState) : result BiState :=
  match items with
  | [] => Ok st
  | (w, d) :: items' =>
      st' <- relax dir v dist st w d ;;
      relax_all dir v dist items' st'
  end.

(** the [while] loop; [dir] is the direction of the previous round *)
Fixpoint search_loop (budget : nat) (dir : direction) (st : BiState)
  : result (list string) :=
  match budget with
  | O => Raise BudgetExhausted
  | S budget' =>
      if is_nil (fringe (fwd st)) || is_nil (fringe (bwd st)) then
        Raise (no_path source target)
      else
        let dir := flip dir in
        let s := side st dir in
        match heappop (fringe s) with
        | None => Raise (no_path source target)
        | Some ((dist, _, v), rest) =>
            let s1 := mkSide (dists s) (paths s) rest (seen s) in
            if dict_mem (dists s) v then search_loop budget' dir (set_side st dir s1)
            else
              let s2 := mkSide (dict_set (dists s) v dist) (paths s) rest (seen s) in
              let st2 := set_side st dir s2 in
              if dict_mem (dists (side st2 (flip dir))) v then Ok (finalpath st2)
              else
                items <- dict_item (_adj G) v ;;
                st3 <- relax_all dir v dist items st2 ;;
                search_loop budget' dir st3
        end
  end.

Definition initial_state : BiState :=
  mkBiState (mkSide [] [(source, [source])] [(0%Q, 0%nat, source)] [(source, 0%Q)])
            (mkSide [] [(target, [target])] [(0%Q, 1%nat, target)] [(target, 0%Q)])
            2%nat 0%Q [].

Definition total_degree : nat :=
  list_sum (map (fun kv => List.length (snd kv)) (_adj G)).

(** enough rounds for every heap entry that can ever be pushed *)
Definition search_budget : nat := 2 * total_degree + 3.

Definition bidirectional_dijkstra : result (list string) :=
  if negb (has_node G source) || negb (has_node G target) then
    Raise (NodeNotFound ("Either source " ++ source ++ " or target " ++ target
                         ++ " is not in G")%string)
  else if String.eqb source target then Ok [source]
  else search_loop search_budget Backward initial_state.
End Search.

Definition shortest_path (G : MultiGraph) (source target : string)
    (weight : string -> string -> keydict -> result (option Q)) : result (list string) :=
  bidirectional_dijkstra G weight source target.

(** ** Route search *)

Definition station_not_found : exn :=
  ValueError "Start or end station not found in network".

Definition no_path_found (start end_ : string) : exn :=
  ValueError ("No path found between " ++ start ++ " and " ++ end_)%string.

Definition find_optimal_route {T : Type} (self : TransportNetwork) (start end_ : string)
    (time : option T) (preferences : option (dict Q))
  : result (list string * Z * Z) :=
  if negb (has_node (network self) start) || negb (has_node (network self) end_) then
    Raise station_not_found
  else
    let preferences := match preferences with
                       | Some p => p
                       | None => default_preferences
                       end in
    let weight_function := fun u v attrs =>
      w <- weight_function self preferences u v attrs ;; Ok (Some w) in
    let attempt :=
      path <- shortest_path (network self) start end_ weight_function ;;
      total_time <- _calculate_total_time self path ;;
      transfers <- _count_transfers self path ;;
      Ok (path, total_time, transfers) in
    match attempt with
    | Raise (NetworkXNoPath _) => Raise (no_path_found start end_)
    | r => r
    end.

(** ** The sample network of [create_sample_network] *)

Definition connect (self : TransportNetwork) (c : string * string * string * Z)
  : TransportNetwork :=
  let '(start, end_, ttype, time) := c in
  snd (add_connection self start end_ ttype time None).

Definition create_sample_network : TransportNetwork :=
  let stations := [("Ramsis_square", 1000%Z); ("North", 500%Z); ("South", 500%Z);
                   ("East", 300%Z); ("West", 300%Z); ("Airport", 800%Z)] in
  let net := fold_left (fun n sc => add_station n (fst sc) (snd sc) None (0%Q, 0%Q))
                       stations init in
  fold_left connect
    [("Ramsis_square", "North", "Metro", 21%Z);
     ("Ramsis_square", "South", "Metro", 20%Z);
     ("Ramsis_square", "Airport", "Train", 24%Z);
     ("North", "East", "Bus", 30%Z);
     ("South", "West", "Bus", 25%Z);
     ("East", "Airport", "Bus", 30%Z);
     ("West", "Airport", "Train", 25%Z)] net.


(** ** Building a network: sequences of [add_station] and [add_connection] *)

Inductive operation : Type :=
| AddStation (station_id : string) (cap : Z) (coords : option (Q * Q)) (rnd : Q * Q)
| AddConnection (start end_ ttype : string) (ttime : Z) (sched : option (list string)).

(** a failing [add_connection] leaves the network as it was and the caller
    goes on with the next operation *)
Definition apply_operation (self : TransportNetwork) (o : operation) : TransportNetwork :=
  match o with
  | AddStation station_id cap coords rnd => add_station self station_id cap coords rnd
  | AddConnection start end_ ttype ttime sched =>
      snd (add_connection self start end_ ttype ttime sched)
  end.

Definition build (ops : list operation) : TransportNetwork :=
  fold_left apply_operation ops init.

Definition enumerated_types : list string := ["Metro"; "Bus"; "Train"].

(** [o] adds station [x]: by [add_station], or as an end of a connection
    that is recorded *)
Definition names_station (x : string) (o : operation) : Prop :=
  match o with
  | AddStation station_id _ _ _ => station_id = x
  | AddConnection start end_ ttype _ _ =>
      In ttype enumerated_types /\ (start = x \/ end_ = x)
  end.

Definition present (ops : list operation) (x : string) : Prop :=
  Exists (names_station x) ops.

Definition time_nonneg (o : operation) : Prop :=
  match o with
  | AddStation _ _ _ _ => True
  | AddConnection _ _ _ ttime _ => (0 <= ttime)%Z
  end.



(** every multiplier of the mapping is a Python integer that is not
    negative: products and sums of weights are then integers, and exact *)
Definition integer_multipliers (preferences : dict Q) : Prop :=
  forall t m, dict_get preferences t = Some m -> exists z, (0 <= z)%Z /\ m = inject_Z z.

Definition prefs_nonneg (preferences : option (dict Q)) : Prop :=
  match preferences with
  | Some p => forall t m, dict_get p t = Some m -> (0 <= m)%Q
  | None => True
  end.

(** ** Graph vocabulary for the statements *)

(** [G._adj[u][v]] when both lookups succeed *)
Definition adj_lookup (adj : dict (dict keydict)) (u v : string) : option keydict :=
  match dict_get adj u with
  | Some d => dict_get d v
  | None => None
  end.

Definition edge_lookup (G : MultiGraph) (u v : string) : option keydict :=
  adj_lookup (_adj G) u v.

Definition in_adj (G : MultiGraph) (u : string) : bool := dict_mem (_adj G) u.



(** consecutive stations of the path are adjacent *)
Fixpoint walk (G : MultiGraph) (path : list string) : Prop :=
  match path with
  | u :: (v :: _) as rest => edge_lookup G u v <> None /\ walk G rest
  | _ => True
  end.


Record graph_wf (G : MultiGraph) : Prop := mk_graph_wf {
  wf_nodes : forall n, dict_mem (_node G) n = dict_mem (_adj G) n;
  wf_sym : forall u v kd, edge_lookup G u v = Some kd -> edge_lookup G v u = Some kd;
  wf_nonempty : forall u v kd, edge_lookup G u v = Some kd -> kd <> []
}.

(** every recorded edge carries a type of the enumeration and a time *)
Definition edges_typed (G : MultiGraph) : Prop :=
  forall u v kd e, edge_lookup G u v = Some kd -> In e kd ->
    (exists t, transport_type e = Some t /\ In t enumerated_types)
    /\ (exists m, travel_time e = Some m).

Definition times_nonneg (G : MultiGraph) : Prop :=
  forall u v kd e m, edge_lookup G u v = Some kd -> In e kd ->
    travel_time e = Some m -> (0 <= m)%Z.

(** ** The quantities the specification speaks of *)

(** the search weights of the parallel connections that carry both a type
    and a time *)
Definition edge_weights (preferences : dict Q) (kd : keydict) : list Q :=
  flat_map (fun e => match transport_type e, travel_time e with
                     | Some t, Some time => [(inject_Z time * prefs_get preferences t)%Q]
                     | _, _ => []
                     end) kd.

(** [travel_time * preferences.get(transport_type, 1)] for one connection *)
Definition connection_weight (preferences : dict Q) (e : EdgeData) : option Q :=
  match transport_type e, travel_time e with
  | Some t, Some time => Some (inject_Z time * prefs_get preferences t)%Q
  | _, _ => None
  end.

(** the raw times of the parallel connections that carry one *)
Definition edge_times (kd : keydict) : list Z :=
  flat_map (fun e => match travel_time e with
                     | Some time => [time]
                     | None => []
                     end) kd.

Definition is_min_Z (m : Z) (l : list Z) : Prop :=
  In m l /\ forall x, In x l -> (m <= x)%Z.

Definition is_min_Q (m : Q) (l : list Q) : Prop :=
  In m l /\ forall x, In x l -> (m <= x)%Q.

(** least raw time of a hop, 0 when no connection carries a time *)
Definition least_time (kd : keydict) : Z :=
  match edge_times kd with
  | [] => 0%Z
  | t :: ts => fold_right Z.min t ts
  end.

(** sum over the hops [path[i], path[i+1]] of the least raw time *)
Definition sum_of_least_times (G : MultiGraph) (path : list string) : Z :=
  fold_right Z.add 0%Z
    (map (fun i => least_time (connections G (nth i path "") (nth (S i) path "")))
         (seq 0 (List.length path - 1))).

(** the type of the first parallel connection that has a non-empty type *)
Definition first_type (kd : keydict) : option string :=
  match find (fun e => truthy (transport_type e)) kd with
  | Some e => transport_type e
  | None => None
  end.

(** the type of a parallel connection of least travel time, the first of
    them in insertion order: the selection rule of the specification *)
Fixpoint least_time_edge (best : option EdgeData) (kd : keydict) : option EdgeData :=
  match kd with
  | [] => best
  | e :: kd' =>
      match travel_time e, best with
      | Some t, Some b =>
          match travel_time b with
          | Some tb => least_time_edge (if (t <? tb)%Z then Some e else best) kd'
          | None => least_time_edge (Some e) kd'
          end
      | Some _, None => least_time_edge (Some e) kd'
      | None, _ => least_time_edge best kd'
      end
  end.

Definition least_time_type (kd : keydict) : option string :=
  match least_time_edge None kd with
  | Some e => transport_type e
  | None => None
  end.

(** the number of interior positions of [path] where the type of the hop
    arriving differs from the type of the hop leaving, hop types being
    chosen by [pick] *)
Definition type_changes (pick : keydict -> option string) (G : MultiGraph)
    (path : list string) : Z :=
  let hop i := pick (connections G (nth i path "") (nth (S i) path "")) in
  Z.of_nat (List.length
    (filter (fun i => is_transfer (hop (i - 1)%nat) (hop i))
            (seq 1 (List.length path - 2)))).

(** [(x, y)] is the unordered pair [{u, v}] *)
Definition pair_is (x y u v : string) : bool :=
  (String.eqb x u && String.eqb y v) || (String.eqb x v && String.eqb y u).

(** the network with its graph replaced *)
Definition with_graph (self : TransportNetwork) (G : MultiGraph) : TransportNetwork :=
  mkTransportNetwork G (transport_types self) (schedules self) (station_capacity self).

(** what every network made by the two operations satisfies *)
Record network_ok (self : TransportNetwork) : Prop := mk_network_ok {
  ok_wf : graph_wf (network self);
  ok_typed : edges_typed (network self);
  ok_types : transport_types self = enumerated_types
}.

(** ** Concrete networks used below *)

(** two parallel connections, the slower one first; then a bus hop *)
Definition first_listed_network : TransportNetwork :=
  build [AddConnection "A" "B" "Metro" 10 None;
         AddConnection "A" "B" "Bus" 8 None;
         AddConnection "B" "C" "Bus" 5 None].

Definition metro_bus_preferences : dict Q := [("Metro", 1%Q); ("Bus", 2%Q)].

Definition metro_then_bus : TransportNetwork :=
  build [AddStation "A" 100 None (0, 0)%Q; AddStation "B" 100 None (0, 0)%Q;
         AddConnection "A" "B" "Metro" 10 None;
         AddConnection "A" "B" "Bus" 8 None].

Definition bus_then_metro : TransportNetwork :=
  build [AddConnection "A" "B" "Bus" 8 None;
         AddConnection "A" "B" "Metro" 10 None].

(** the same pair and type recorded twice *)
Definition twice_metro : list operation :=
  [AddConnection "A" "B" "Metro" 10 None; AddConnection "A" "B" "Metro" 12 None].

(** at most one connection per transport type between any two stations *)
Definition one_per_type (G : MultiGraph) : Prop :=
  forall u v, NoDup (map transport_type (connections G u v)).

(** ** Vocabulary for the search invariants *)

(** [p] ends at [x] *)
Definition ends_at (x : string) (p : list string) : Prop :=
  exists q, p = q ++ [x].






Definition origin (source target : string) (dir : direction) : string :=
  match dir with
  | Forward => source
  | Backward => target
  end.





(** the operations of [create_sample_network], in order *)
Definition sample_operations : list operation :=
  [AddStation "Ramsis_square" 1000 None (0, 0)%Q;
   AddStation "North" 500 None (0, 0)%Q;
   AddStation "South" 500 None (0, 0)%Q;
   AddStation "East" 300 None (0, 0)%Q;
   AddStation "West" 300 None (0, 0)%Q;
   AddStation "Airport" 800 None (0, 0)%Q;
   AddConnection "Ramsis_square" "North" "Metro" 21 None;
   AddConnection "Ramsis_square" "South" "Metro" 20 None;
   AddConnection "Ramsis_square" "Airport" "Train" 24 None;
   AddConnection "North" "East" "Bus" 30 None;
   AddConnection "South" "West" "Bus" 25 None;
   AddConnection "East" "Airport" "Bus" 30 None;
   AddConnection "West" "Airport" "Train" 25 None].

(** the weight callable [find_optimal_route] hands to the search *)
Definition route_weight (self : TransportNetwork) (preferences : dict Q)
    (u v : string) (attrs : keydict) : result (option Q) :=
  w <- weight_function self preferences u v attrs ;; Ok (Some w).

Definition effective_preferences (preferences : option (dict Q)) : dict Q :=
  match preferences with
  | Some p => p
  | None => default_preferences
  end.

(** connections that [add_connection] accepts, one with a negative travel
    time *)
Definition negative_time_operations : list operation :=
  [AddConnection "A" "B" "Metro" 5 None;
   AddConnection "A" "C" "Metro" 1 None;
   AddConnection "C" "B" "Metro" (-3) None;
   AddConnection "B" "D" "Metro" 100 None;
   AddConnection "D" "E" "Metro" 100 None;
   AddConnection "E" "F" "Metro" 100 None].

Definition negative_time_network : TransportNetwork :=
  build negative_time_operations.

(** travel times that are not negative, to be searched with a negative
    multiplier for Train *)
Definition train_shortcut_operations : list operation :=
  [AddConnection "A" "B" "Metro" 5 None;
   AddConnection "A" "C" "Metro" 1 None;
   AddConnection "C" "B" "Train" 3 None;
   AddConnection "B" "D" "Metro" 100 None;
   AddConnection "D" "E" "Metro" 100 None;
   AddConnection "E" "F" "Metro" 100 None].

Definition negative_train_preferences : dict Q := [("Train", (-1)%Q)].


(** a connection recorded with a schedule of its own *)
Definition given_schedule_operations : list operation :=
  [AddConnection "A" "B" "Bus" 8 (Some ["06:00"; "18:00"])].

(** a connection one end of which was never added by [add_station] *)
Definition unadded_end_operations : list operation :=
  [AddStation "A" 100 None (0, 0)%Q; AddConnection "A" "B" "Metro" 10 None].

(** preferences whose multipliers are integers *)
Definition integer_preferences : dict Q := [("Metro", 1%Q); ("Bus", 2%Q); ("Train", 1%Q)].

(** ** The data [visualize_network] computes before it draws *)

(** [[self.station_capacity[node] * 100 for node in self.network.nodes()]],
    the [node_size] argument; the subscript raises [KeyError] for a node
    without a recorded capacity *)
Fixpoint node_sizes_of (caps : dict Z) (nodes : list string) : result (list Z) :=
  match nodes with
  | [] => Ok []
  | node :: rest =>
      c <- dict_item caps node ;;
      sizes <- node_sizes_of caps rest ;;
      Ok ((c * 100)%Z :: sizes)
  end.

Definition node_sizes (self : TransportNetwork) : result (list Z) :=
  node_sizes_of (station_capacity self) (map fst (_node (network self))).

(** [list(zip(highlight_path[:-1], highlight_path[1:]))] *)
Definition path_edges (highlight_path : list string) : list (string * string) :=
  combine (removelast highlight_path) (tl highlight_path).

(** [o] is a call of [add_station] for [x] *)
Definition adds_station (x : string) (o : operation) : Prop :=
  match o with
  | AddStation station_id _ _ _ => station_id = x
  | AddConnection _ _ _ _ _ => False
  end.

(** the attribute dictionaries of the connections between [u] and [v] that
    the operations [ops] record, in order *)
Definition recorded (u v : string) (ops : list operation) : list EdgeData :=
  flat_map (fun o => match o with
                     | AddConnection start end_ ttype ttime sched =>
                         if pair_is u v start end_ && str_in ttype enumerated_types
                         then [new_edge_data ttype ttime sched]
                         else []
                     | AddStation _ _ _ _ => []
                     end) ops.

(** ** Vocabulary for the shape of the route found *)

(** [p] starts at [o] *)
Definition starts_at (o : string) (p : list string) : Prop :=
  exists q, p = o :: q.

(** the paths kept on one side: each leads from the origin to its key,
    visits no station twice, and all its stations before the last are
    settled *)
Record trail_ok (o : string) (s : Side) : Prop := mk_trail_ok {
  tr_paths : forall x p, dict_get (paths s) x = Some p ->
    starts_at o p /\ NoDup p
    /\ exists q, p = q ++ [x] /\ forall y, In y q -> dict_mem (dists s) y = true;
  tr_fringe_seen : forall e, In e (fringe s) -> dict_mem (seen s) (entry_node e) = true;
  tr_dists_seen : forall x, dict_mem (dists s) x = true -> dict_mem (seen s) x = true
}.

Definition final_ok (source target : string) (p : list string) : Prop :=
  p = [] \/ (starts_at source p /\ ends_at target p /\ NoDup p).

Record route_ok (source target : string) (st : BiState) : Prop := mk_route_ok {
  ro_side : forall d, trail_ok (origin source target d) (side st d);
  ro_apart : forall x, dict_mem (dists (fwd st)) x = true ->
                       dict_mem (dists (bwd st)) x = true -> False;
  ro_final : final_ok source target (finalpath st);
  ro_met : forall x, dict_mem (seen (fwd st)) x = true ->
                     dict_mem (seen (bwd st)) x = true -> finalpath st <> []
}.

(** ** Vocabulary for the cost of the route found *)

(** the cost of a path when the hop from [u] to [v] costs [c u v] *)
Fixpoint path_cost (c : string -> string -> Q) (path : list string) : Q :=
  match path with
  | u :: (v :: _) as rest => (c u v + path_cost c rest)%Q
  | _ => 0%Q
  end.

(** the search weight of the hop between [u] and [v] *)
Definition hop_cost (self : TransportNetwork) (preferences : dict Q) (u v : string) : Q :=
  hop_weight preferences (connections (network self) u v).

(** the weighted cost of a path, the quantity the search minimises *)
Definition route_cost (self : TransportNetwork) (preferences : dict Q)
    (path : list string) : Q :=
  path_cost (hop_cost self preferences) path.

(** what holds of the distances kept on one side of the search, seen from
    its origin [o] *)
Record dist_ok (G : MultiGraph) (c : string -> string -> Q) (o : string) (s : Side)
  : Prop := mk_dist_ok {
  d_fringe : forall e, In e (fringe s) ->
    exists k, dict_get (seen s) (entry_node e) = Some k /\ (k <= entry_dist e)%Q;
  d_pending : forall x k, dict_get (seen s) x = Some k -> dict_mem (dists s) x = false ->
    exists e, In e (fringe s) /\ entry_node e = x /\ (entry_dist e == k)%Q;
  d_settled : forall x dx, dict_get (dists s) x = Some dx ->
    exists k, dict_get (seen s) x = Some k /\ (k == dx)%Q;
  d_lower : forall x dx p, dict_get (dists s) x = Some dx ->
    walk G p -> starts_at o p -> ends_at x p -> (dx <= path_cost c p)%Q;
  d_below : forall x dx e, dict_get (dists s) x = Some dx -> In e (fringe s) ->
    (dx <= entry_dist e)%Q;
  d_origin : exists k, dict_get (seen s) o = Some k /\ (k <= 0)%Q;
  d_paths : forall x k p, dict_get (seen s) x = Some k -> dict_get (paths s) x = Some p ->
    ends_at x p /\ (path_cost c p == k)%Q
}.

(** the neighbours of the settled station [x] have been relaxed from it *)
Definition relaxed_from (G : MultiGraph) (c : string -> string -> Q) (s : Side)
    (x : string) : Prop :=
  forall dx items w d,
    dict_get (dists s) x = Some dx -> dict_get (_adj G) x = Some items ->
    In (w, d) items ->
    exists k, dict_get (seen s) w = Some k /\ (k <= dx + c x w)%Q.

(** the state of the search; [busy] names the direction and the station
    whose neighbours are being relaxed, if any *)
Record opt_ok (G : MultiGraph) (c : string -> string -> Q) (source target : string)
    (busy : option (direction * string)) (st : BiState) : Prop := mk_opt_ok {
  op_side : forall d, dist_ok G c (origin source target d) (side st d);
  op_relaxed : forall d x, busy <> Some (d, x) -> relaxed_from G c (side st d) x;
  op_met : forall w k0 k1,
    dict_get (seen (fwd st)) w = Some k0 -> dict_get (seen (bwd st)) w = Some k1 ->
    finalpath st <> [] /\ (finaldist st <= k0 + k1)%Q;
  op_final : finalpath st <> [] -> (path_cost c (finalpath st) == finaldist st)%Q
}.

(** the station [v] has just been settled at distance [dist] in direction
    [dir] *)
Record settled_at (dir : direction) (v : string) (dist : Q) (st : BiState) : Prop :=
  mk_settled_at {
  sa_dist : dict_get (dists (side st dir)) v = Some dist;
  sa_bound : forall x dx, dict_get (dists (side st dir)) x = Some dx -> (dx <= dist)%Q;
  sa_floor : forall e, In e (fringe (side st dir)) -> (dist <= entry_dist e)%Q
}.

(** * Facts *)

(** ** Dictionaries *)

Section DictFacts.
Context {V : Type}.
Implicit Types (d : dict V) (k : string) (v : V).

Lemma dict_get_set d k k' v :
  dict_get (dict_set d k v) k' = if String.eqb k' k then Some v else dict_get d k'.
Proof.
  induction d as [|[k0 v0] d IH]; simpl.
  - reflexivity.
  - destruct (String.eqb k k0) eqn:E; simpl.
    + apply String.eqb_eq in E. subst k0.
      destruct (String.eqb k' k); reflexivity.
    + rewrite IH. destruct (String.eqb k' k0) eqn:E0; [|reflexivity].
      apply String.eqb_eq in E0. subst k0.
      rewrite String.eqb_sym, E. reflexivity.
Qed.

Lemma dict_mem_set d k k' v :
  dict_mem (dict_set d k v) k' = String.eqb k' k || dict_mem d k'.
Proof.
  unfold dict_mem. rewrite dict_get_set. destruct (String.eqb k' k); reflexivity.
Qed.

Lemma dict_get_In d k v : dict_get d k = Some v -> In (k, v) d.
Proof.
  induction d as [|[k0 v0] d IH]; simpl; [discriminate|].
  destruct (String.eqb k k0) eqn:E.
  - apply String.eqb_eq in E. intros [= ->]. subst. now left.
  - intros H. right. auto.
Qed.

Lemma In_dict_mem d k v : In (k, v) d -> dict_mem d k = true.
Proof.
  unfold dict_mem. induction d as [|[k0 v0] d IH]; simpl; [tauto|].
  intros [H|H].
  - injection H as -> ->. rewrite String.eqb_refl. reflexivity.
  - destruct (String.eqb k k0); [reflexivity|auto].
Qed.

Lemma dict_mem_true d k : dict_mem d k = true <-> exists v, dict_get d k = Some v.
Proof.
  unfold dict_mem. destruct (dict_get d k); split; eauto; try discriminate.
  intros [v H]. discriminate.
Qed.

Lemma dict_mem_false d k : dict_mem d k = false <-> dict_get d k = None.
Proof.
  unfold dict_mem. destruct (dict_get d k); split; congruence.
Qed.

Lemma dict_item_Ok d k v : dict_item d k = Ok v <-> dict_get d k = Some v.
Proof.
  unfold dict_item. destruct (dict_get d k); split; congruence.
Qed.
End DictFacts.

(** ** The multigraph operations *)

Lemma connections_lookup G u v :
  connections G u v = match edge_lookup G u v with Some kd => kd | None => [] end.
Proof.
  unfold connections, nbrs, edge_lookup, adj_lookup.
  destruct (dict_get (_adj G) u); reflexivity.
Qed.

Lemma adj_item_lookup G u v kd : adj_item G u v = Ok kd <-> edge_lookup G u v = Some kd.
Proof.
  unfold adj_item, edge_lookup, adj_lookup, dict_item, bind.
  destruct (dict_get (_adj G) u) as [d|]; [|split; discriminate].
  destruct (dict_get d v); split; congruence.
Qed.

Lemma adj_item_Ok G u v :
  edge_lookup G u v <> None -> adj_item G u v = Ok (connections G u v).
Proof.
  intros H. rewrite connections_lookup.
  destruct (edge_lookup G u v) eqn:E; [|congruence].
  now apply adj_item_lookup.
Qed.

Lemma adj_lookup_set_keydict adj u v kd x y :
  dict_mem adj u = true ->
  adj_lookup (set_keydict adj u v kd) x y =
    if String.eqb x u && String.eqb y v then Some kd else adj_lookup adj x y.
Proof.
  intros Hu. apply dict_mem_true in Hu. destruct Hu as [d Hd].
  unfold set_keydict, adj_lookup. rewrite Hd, dict_get_set.
  destruct (String.eqb x u) eqn:E; simpl; [|reflexivity].
  apply String.eqb_eq in E. subst x. rewrite Hd, dict_get_set. reflexivity.
Qed.

Lemma dict_mem_set_keydict adj u v kd x :
  dict_mem (set_keydict adj u v kd) x = dict_mem adj x.
Proof.
  unfold set_keydict. destruct (dict_get adj u) eqn:E; [|reflexivity].
  rewrite dict_mem_set. destruct (String.eqb x u) eqn:Ex; [|reflexivity].
  apply String.eqb_eq in Ex. subst x. simpl. symmetry.
  apply dict_mem_true. eauto.
Qed.

Lemma in_adj_ensure_node G n x :
  in_adj (ensure_node G n) x = String.eqb x n || in_adj G x.
Proof.
  unfold ensure_node, in_adj. destruct (dict_mem (_adj G) n) eqn:E; simpl.
  - destruct (String.eqb x n) eqn:Ex; [|reflexivity].
    apply String.eqb_eq in Ex. subst x. now rewrite E.
  - apply dict_mem_set.
Qed.

Lemma edge_lookup_ensure_node G n x y :
  edge_lookup (ensure_node G n) x y = edge_lookup G x y.
Proof.
  unfold ensure_node, edge_lookup, adj_lookup.
  destruct (dict_mem (_adj G) n) eqn:E; simpl; [reflexivity|].
  rewrite dict_get_set. destruct (String.eqb x n) eqn:Ex; [|reflexivity].
  apply String.eqb_eq in Ex. subst x. apply dict_mem_false in E. now rewrite E.
Qed.

Lemma node_mem_ensure_node G n x :
  (forall m, dict_mem (_node G) m = dict_mem (_adj G) m) ->
  dict_mem (_node (ensure_node G n)) x = String.eqb x n || dict_mem (_node G) x.
Proof.
  intros Hwf. unfold ensure_node. destruct (dict_mem (_adj G) n) eqn:E; simpl.
  - destruct (String.eqb x n) eqn:Ex; [|reflexivity].
    apply String.eqb_eq in Ex. subst x. now rewrite Hwf, E.
  - apply dict_mem_set.
Qed.

Lemma in_adj_add_edge G u v x :
  in_adj (fst (add_edge G u v)) x = String.eqb x u || String.eqb x v || in_adj G x.
Proof.
  unfold add_edge, in_adj. simpl. rewrite !dict_mem_set_keydict.
  fold (in_adj (ensure_node (ensure_node G u) v) x).
  rewrite !in_adj_ensure_node.
  destruct (String.eqb x u), (String.eqb x v); reflexivity.
Qed.

Lemma edge_lookup_add_edge G u v x y :
  edge_lookup (fst (add_edge G u v)) x y =
    if pair_is x y u v then Some (connections G u v ++ [empty_edge_data])
    else edge_lookup G x y.
Proof.
  assert (Hu : in_adj (ensure_node (ensure_node G u) v) u = true).
  { rewrite !in_adj_ensure_node, String.eqb_refl. now rewrite orb_true_r. }
  assert (Hv : in_adj (ensure_node (ensure_node G u) v) v = true).
  { rewrite !in_adj_ensure_node, String.eqb_refl. reflexivity. }
  assert (Hc : connections (ensure_node (ensure_node G u) v) u v = connections G u v).
  { rewrite !connections_lookup, !edge_lookup_ensure_node. reflexivity. }
  unfold add_edge, edge_lookup. simpl. rewrite Hc.
  rewrite adj_lookup_set_keydict by (rewrite dict_mem_set_keydict; exact Hv).
  rewrite adj_lookup_set_keydict by exact Hu.
  fold (edge_lookup (ensure_node (ensure_node G u) v) x y).
  rewrite !edge_lookup_ensure_node. unfold pair_is.
  destruct (String.eqb x v && String.eqb y u), (String.eqb x u && String.eqb y v);
    reflexivity.
Qed.

Lemma node_mem_add_edge G u v x :
  (forall m, dict_mem (_node G) m = dict_mem (_adj G) m) ->
  dict_mem (_node (fst (add_edge G u v))) x
  = String.eqb x u || String.eqb x v || dict_mem (_node G) x.
Proof.
  intros Hwf. unfold add_edge. simpl.
  assert (Hwf1 : forall m, dict_mem (_node (ensure_node G u)) m
                           = dict_mem (_adj (ensure_node G u)) m).
  { intros m. rewrite node_mem_ensure_node by assumption.
    fold (in_adj (ensure_node G u) m). rewrite in_adj_ensure_node.
    unfold in_adj. now rewrite Hwf. }
  rewrite (node_mem_ensure_node _ _ _ Hwf1), (node_mem_ensure_node _ _ _ Hwf).
  destruct (String.eqb x u), (String.eqb x v); reflexivity.
Qed.

Lemma list_update_last {A : Type} (l : list A) (x : A) (f : A -> A) :
  list_update (l ++ [x]) (List.length l) f = l ++ [f x].
Proof. induction l; simpl; congruence. Qed.

Lemma nth_error_last {A : Type} (l : list A) (x : A) :
  nth_error (l ++ [x]) (List.length l) = Some x.
Proof. induction l; simpl; auto. Qed.

(** what a recorded [add_connection] does to the graph *)
Lemma add_connection_ok self u v ttype ttime sched :
  str_in ttype (transport_types self) = true ->
  exists G',
    add_connection self u v ttype ttime sched = (Ok tt, with_graph self G')
    /\ (forall x y, edge_lookup G' x y =
          if pair_is x y u v
          then Some (connections (network self) u v ++ [new_edge_data ttype ttime sched])
          else edge_lookup (network self) x y)
    /\ (forall x, in_adj G' x = String.eqb x u || String.eqb x v || in_adj (network self) x)
    /\ ((forall m, dict_mem (_node (network self)) m = dict_mem (_adj (network self)) m) ->
        forall x, dict_mem (_node G') x
                  = String.eqb x u || String.eqb x v || dict_mem (_node (network self)) x).
Proof.
  intros Ht. unfold add_connection. rewrite Ht. simpl negb. cbv iota.
  set (G := network self).
  pose proof (edge_lookup_add_edge G u v) as HL.
  pose proof (in_adj_add_edge G u v) as HA.
  pose proof (node_mem_add_edge G u v) as HN.
  destruct (add_edge G u v) as [G1 key] eqn:E.
  assert (Hkey : key = List.length (connections G u v)).
  { unfold add_edge in E. injection E as _ <-.
    rewrite !connections_lookup, !edge_lookup_ensure_node. reflexivity. }
  simpl in HL, HA, HN.
  assert (Huv : adj_item G1 u v = Ok (connections G u v ++ [empty_edge_data])).
  { apply adj_item_lookup. rewrite HL. unfold pair_is.
    now rewrite !String.eqb_refl. }
  unfold update_edge. rewrite Huv. simpl bind.
  rewrite Hkey, nth_error_last, list_update_last.
  eexists. split; [reflexivity|].
  assert (Hu : dict_mem (_adj G1) u = true).
  { fold (in_adj G1 u). rewrite HA, String.eqb_refl. reflexivity. }
  assert (Hv : dict_mem (_adj G1) v = true).
  { fold (in_adj G1 v). rewrite HA, String.eqb_refl. now rewrite orb_true_r. }
  split; [|split].
  - intros x y. unfold edge_lookup at 1. simpl.
    rewrite adj_lookup_set_keydict by (rewrite dict_mem_set_keydict; exact Hv).
    rewrite adj_lookup_set_keydict by exact Hu.
    fold (edge_lookup G1 x y). rewrite HL. unfold pair_is.
    unfold edge_data_update, new_edge_data, empty_edge_data. simpl.
    destruct (String.eqb x v && String.eqb y u), (String.eqb x u && String.eqb y v);
      reflexivity.
  - intros x. unfold in_adj at 1. simpl. rewrite !dict_mem_set_keydict. apply HA.
  - intros Hwf x. simpl. apply HN, Hwf.
Qed.

Lemma add_connection_rejected self u v ttype ttime sched :
  str_in ttype (transport_types self) = false ->
  add_connection self u v ttype ttime sched = (Raise (invalid_transport_type self), self).
Proof. intros Ht. unfold add_connection. now rewrite Ht. Qed.

Lemma str_in_In s l : str_in s l = true <-> In s l.
Proof.
  unfold str_in. rewrite existsb_exists. split.
  - intros [x [Hx E]]. apply String.eqb_eq in E. now subst.
  - intros H. exists s. split; [assumption|apply String.eqb_refl].
Qed.

Lemma transport_types_apply self o :
  transport_types (apply_operation self o) = transport_types self.
Proof.
  destruct o as [id cap coords rnd|u v ttype ttime sched]; simpl; [reflexivity|].
  destruct (str_in ttype (transport_types self)) eqn:E.
  - destruct (add_connection_ok self u v ttype ttime sched E) as [G' [-> _]].
    reflexivity.
  - now rewrite add_connection_rejected.
Qed.

Lemma transport_types_fold ops self :
  transport_types (fold_left apply_operation ops self) = transport_types self.
Proof.
  revert self. induction ops as [|o ops IH]; intros self; simpl; [reflexivity|].
  now rewrite IH, transport_types_apply.
Qed.

Lemma transport_types_build ops : transport_types (build ops) = enumerated_types.
Proof. unfold build. now rewrite transport_types_fold. Qed.

(** ** Networks built by the two operations are well formed *)

Lemma pair_is_sym x y u v : pair_is x y u v = pair_is y x u v.
Proof.
  unfold pair_is.
  destruct (String.eqb x u), (String.eqb y v), (String.eqb x v), (String.eqb y u);
    reflexivity.
Qed.

Lemma pair_is_true x y u v :
  pair_is x y u v = true <-> (x = u /\ y = v) \/ (x = v /\ y = u).
Proof.
  unfold pair_is. rewrite orb_true_iff, !andb_true_iff, !String.eqb_eq. tauto.
Qed.

Lemma in_connections G u v e :
  In e (connections G u v) -> exists kd, edge_lookup G u v = Some kd /\ In e kd.
Proof.
  rewrite connections_lookup. destruct (edge_lookup G u v); simpl; [eauto|tauto].
Qed.

Lemma edge_lookup_add_node G n c xy x y :
  (forall m, dict_mem (_node G) m = dict_mem (_adj G) m) ->
  edge_lookup (add_node G n c xy) x y = edge_lookup G x y.
Proof.
  intros Hwf. unfold add_node, edge_lookup, adj_lookup. simpl.
  destruct (dict_mem (_node G) n) eqn:E; [reflexivity|].
  rewrite dict_get_set. destruct (String.eqb x n) eqn:Ex; [|reflexivity].
  apply String.eqb_eq in Ex. subst x. rewrite Hwf in E.
  apply dict_mem_false in E. now rewrite E.
Qed.

Lemma mem_add_node G n c xy :
  (forall m, dict_mem (_node G) m = dict_mem (_adj G) m) ->
  forall x, dict_mem (_node (add_node G n c xy)) x = String.eqb x n || dict_mem (_node G) x
            /\ dict_mem (_adj (add_node G n c xy)) x = String.eqb x n || dict_mem (_node G) x.
Proof.
  intros Hwf x. unfold add_node. simpl. rewrite dict_mem_set. split; [reflexivity|].
  destruct (dict_mem (_node G) n) eqn:E.
  - rewrite <- Hwf. destruct (String.eqb x n) eqn:Ex; [|reflexivity].
    apply String.eqb_eq in Ex. subst x. now rewrite E.
  - rewrite dict_mem_set, Hwf. reflexivity.
Qed.

Lemma graph_wf_add_node G n c xy : graph_wf G -> graph_wf (add_node G n c xy).
Proof.
  intros [Hn Hs He]. constructor.
  - intros m. destruct (mem_add_node G n c xy Hn m) as [-> ->]. reflexivity.
  - intros u v kd. rewrite !edge_lookup_add_node by assumption. apply Hs.
  - intros u v kd. rewrite !edge_lookup_add_node by assumption. apply He.
Qed.

Lemma graph_wf_empty : graph_wf empty_graph.
Proof. constructor; intros; try reflexivity; discriminate. Qed.

Lemma network_ok_init : network_ok init.
Proof.
  constructor; [apply graph_wf_empty| |reflexivity].
  intros u v kd e H. discriminate.
Qed.

Lemma network_ok_apply self o : network_ok self -> network_ok (apply_operation self o).
Proof.
  intros [Hwf Hty Hts].
  destruct o as [id cap coords rnd|u v ttype ttime sched]; simpl.
  - constructor; simpl; [now apply graph_wf_add_node| |assumption].
    intros x y kd e. rewrite edge_lookup_add_node by apply Hwf. apply Hty.
  - destruct (str_in ttype (transport_types self)) eqn:E.
    2:{ rewrite add_connection_rejected by assumption. now constructor. }
    destruct (add_connection_ok self u v ttype ttime sched E) as [G' [-> [HL [HA HN]]]].
    destruct Hwf as [Hn Hs He]. specialize (HN Hn).
    constructor; simpl; [constructor| |assumption].
    + intros m. rewrite HN. fold (in_adj G' m). rewrite HA. unfold in_adj.
      now rewrite Hn.
    + intros x y kd. rewrite !HL, (pair_is_sym y x).
      destruct (pair_is x y u v); [trivial|apply Hs].
    + intros x y kd. rewrite HL. destruct (pair_is x y u v); [|apply He].
      intros [= <-]. now destruct (connections (network self) u v).
    + intros x y kd e. rewrite HL. destruct (pair_is x y u v); [|apply Hty].
      intros [= <-] Hin. apply in_app_or in Hin. destruct Hin as [Hin|[<-|[]]].
      * apply in_connections in Hin. destruct Hin as [kd0 [H0 Hin]]. eapply Hty; eauto.
      * split; [|simpl; eauto]. exists ttype. split; [reflexivity|].
        rewrite <- Hts. now apply str_in_In.
Qed.

Lemma network_ok_fold ops self :
  network_ok self -> network_ok (fold_left apply_operation ops self).
Proof.
  revert self. induction ops as [|o ops IH]; intros self H; simpl; [assumption|].
  apply IH, network_ok_apply, H.
Qed.

Lemma network_ok_build ops : network_ok (build ops).
Proof. apply network_ok_fold, network_ok_init. Qed.

Lemma times_nonneg_apply self o :
  network_ok self -> time_nonneg o -> times_nonneg (network self) ->
  times_nonneg (network (apply_operation self o)).
Proof.
  intros [Hwf Hty Hts] Ho Hnn.
  destruct o as [id cap coords rnd|u v ttype ttime sched]; simpl.
  - intros x y kd e m. rewrite edge_lookup_add_node by apply Hwf. apply Hnn.
  - destruct (str_in ttype (transport_types self)) eqn:E.
    2:{ now rewrite add_connection_rejected by assumption. }
    destruct (add_connection_ok self u v ttype ttime sched E) as [G' [-> [HL _]]].
    simpl. intros x y kd e m. rewrite HL. destruct (pair_is x y u v); [|apply Hnn].
    intros [= <-] Hin. apply in_app_or in Hin. destruct Hin as [Hin|[<-|[]]].
    + apply in_connections in Hin. destruct Hin as [kd0 [H0 Hin]]. eapply Hnn; eauto.
    + simpl. intros [= <-]. exact Ho.
Qed.

Lemma times_nonneg_fold ops self :
  network_ok self -> Forall time_nonneg ops -> times_nonneg (network self) ->
  times_nonneg (network (fold_left apply_operation ops self)).
Proof.
  revert self. induction ops as [|o ops IH]; intros self Hok Hall Hnn; simpl; [assumption|].
  inversion Hall; subst.
  apply IH; [now apply network_ok_apply|assumption|now apply times_nonneg_apply].
Qed.

Lemma times_nonneg_build ops :
  Forall time_nonneg ops -> times_nonneg (network (build ops)).
Proof.
  intros H. apply times_nonneg_fold; [apply network_ok_init|assumption|].
  intros u v kd e m Hl. discriminate.
Qed.

Lemma has_node_apply self o x :
  network_ok self ->
  has_node (network (apply_operation self o)) x = true
  <-> has_node (network self) x = true \/ names_station x o.
Proof.
  intros [Hwf Hty Hts]. unfold has_node.
  destruct o as [id cap coords rnd|u v ttype ttime sched];
    cbn [apply_operation names_station add_station network].
  - destruct (mem_add_node (network self) id cap (match coords with Some c => c | None => rnd end)
                (wf_nodes _ Hwf) x) as [-> _].
    rewrite orb_true_iff, String.eqb_eq. intuition congruence.
  - destruct (str_in ttype (transport_types self)) eqn:E.
    + destruct (add_connection_ok self u v ttype ttime sched E) as [G' [-> [_ [_ HN]]]].
      cbn [snd with_graph network].
      rewrite (HN (wf_nodes _ Hwf)), !orb_true_iff, !String.eqb_eq.
      apply str_in_In in E. rewrite Hts in E. intuition congruence.
    + rewrite add_connection_rejected by assumption. cbn [snd].
      split; [tauto|]. intros [H|[Hin _]]; [assumption|].
      rewrite <- Hts in Hin. apply str_in_In in Hin. congruence.
Qed.

Lemma has_node_fold ops self x :
  network_ok self ->
  has_node (network (fold_left apply_operation ops self)) x = true
  <-> has_node (network self) x = true \/ present ops x.
Proof.
  revert self. induction ops as [|o ops IH]; intros self Hok; simpl.
  - unfold present. rewrite Exists_nil. tauto.
  - rewrite IH by now apply network_ok_apply.
    rewrite has_node_apply by assumption. unfold present. rewrite Exists_cons. tauto.
Qed.

Lemma has_node_build ops x : has_node (network (build ops)) x = true <-> present ops x.
Proof.
  unfold build. rewrite has_node_fold by apply network_ok_init.
  split; [intros [H|H]; [discriminate|assumption]|tauto].
Qed.

(** ** The metrics, loop against closed form *)

Lemma time_step_edge_times kd acc :
  fold_left time_step kd acc = fold_left min_inf_Z (edge_times kd) acc.
Proof.
  revert acc. induction kd as [|e kd IH]; intros acc; simpl; [reflexivity|].
  unfold edge_times in *. cbn [flat_map]. rewrite fold_left_app, IH. unfold time_step.
  destruct (travel_time e); reflexivity.
Qed.

Lemma min_inf_Z_fold l m : fold_left min_inf_Z l (Some m) = Some (fold_left Z.min l m).
Proof.
  revert m. induction l as [|x l IH]; intros m; simpl; [reflexivity|].
  destruct (x <? m)%Z eqn:E; rewrite IH; f_equal; f_equal.
  - apply Z.ltb_lt in E. lia.
  - apply Z.ltb_ge in E. lia.
Qed.

Lemma hop_time_least kd : hop_time kd = least_time kd.
Proof.
  unfold hop_time, least_time. rewrite time_step_edge_times.
  destruct (edge_times kd) as [|t ts]; simpl; [reflexivity|].
  rewrite min_inf_Z_fold. apply fold_symmetric.
  - intros x y z. apply Z.min_assoc.
  - intros y. apply Z.min_comm.
Qed.

Lemma fold_min_is_min t ts : is_min_Z (fold_right Z.min t ts) (t :: ts).
Proof.
  induction ts as [|x ts [Hin Hle]]; simpl.
  - split; [now left|]. intros x [<-|[]]. lia.
  - split.
    + destruct (Z.min_spec x (fold_right Z.min t ts)) as [[_ ->]|[_ ->]].
      * right. now left.
      * destruct Hin as [H|H]; [now left|right; now right].
    + intros y [<-|[<-|H]].
      * specialize (Hle t (or_introl eq_refl)). lia.
      * lia.
      * specialize (Hle y (or_intror H)). lia.
Qed.

Lemma least_time_is_min kd :
  (edge_times kd = [] -> least_time kd = 0%Z)
  /\ (edge_times kd <> [] -> is_min_Z (least_time kd) (edge_times kd)).
Proof.
  unfold least_time. destruct (edge_times kd) as [|t ts].
  - split; [reflexivity|congruence].
  - split; [discriminate|]. intros _. apply fold_min_is_min.
Qed.

Lemma sum_of_least_times_cons G u v rest :
  sum_of_least_times G (u :: v :: rest)
  = (least_time (connections G u v) + sum_of_least_times G (v :: rest))%Z.
Proof.
  unfold sum_of_least_times. cbn [List.length]. rewrite !Nat.sub_succ, !Nat.sub_0_r.
  cbn [seq map fold_right nth]. f_equal. f_equal.
  rewrite <- seq_shift, map_map. reflexivity.
Qed.

Lemma total_time_loop_cons G u v rest acc :
  total_time_loop G (u :: v :: rest) acc
  = (kd <- adj_item G u v ;; total_time_loop G (v :: rest) (acc + hop_time kd)%Z).
Proof. reflexivity. Qed.

Lemma transfers_loop_cons G a b c rest acc :
  transfers_loop G (a :: b :: c :: rest) acc
  = (kd1 <- adj_item G a b ;;
     kd2 <- adj_item G b c ;;
     transfers_loop G (b :: c :: rest)
       (if is_transfer (scan_transport None kd1) (scan_transport None kd2)
        then acc + 1 else acc)%Z).
Proof. reflexivity. Qed.

Lemma total_time_loop_walk G path acc :
  walk G path -> total_time_loop G path acc = Ok (acc + sum_of_least_times G path)%Z.
Proof.
  revert acc. induction path as [|u [|v rest] IH]; intros acc Hw.
  - simpl. f_equal. unfold sum_of_least_times. simpl. lia.
  - simpl. f_equal. unfold sum_of_least_times. simpl. lia.
  - destruct Hw as [Huv Hw]. rewrite total_time_loop_cons.
    rewrite adj_item_Ok by assumption. cbn [bind].
    rewrite IH by assumption. rewrite sum_of_least_times_cons, hop_time_least.
    f_equal. lia.
Qed.

Lemma scan_transport_first kd cur :
  truthy cur = false ->
  if truthy (scan_transport cur kd) then scan_transport cur kd = first_type kd
  else truthy (first_type kd) = false.
Proof.
  revert cur. induction kd as [|e kd IH]; intros cur Hc; simpl.
  - rewrite Hc. reflexivity.
  - unfold first_type. simpl. destruct (truthy (transport_type e)) eqn:E.
    + rewrite E. reflexivity.
    + apply IH, E.
Qed.

Lemma is_transfer_scan kd1 kd2 :
  is_transfer (scan_transport None kd1) (scan_transport None kd2)
  = is_transfer (first_type kd1) (first_type kd2).
Proof.
  pose proof (scan_transport_first kd1 None eq_refl) as H1.
  pose proof (scan_transport_first kd2 None eq_refl) as H2.
  unfold is_transfer.
  destruct (truthy (scan_transport None kd1)) eqn:E1.
  - rewrite H1 in E1 |- *. rewrite E1.
    destruct (truthy (scan_transport None kd2)) eqn:E2.
    + rewrite H2 in E2 |- *. now rewrite E2.
    + now rewrite H2.
  - now rewrite H1.
Qed.

Lemma type_changes_cons pick G a b c rest :
  type_changes pick G (a :: b :: c :: rest)
  = ((if is_transfer (pick (connections G a b)) (pick (connections G b c)) then 1 else 0)
     + type_changes pick G (b :: c :: rest))%Z.
Proof.
  set (p := b :: c :: rest).
  assert (E : forall l, Forall (fun i => 1 <= i)%nat l ->
    List.length (filter (fun i => is_transfer
        (pick (connections G (nth (i - 1) (a :: p) "") (nth (S (i - 1)) (a :: p) "")))
        (pick (connections G (nth i (a :: p) "") (nth (S i) (a :: p) "")))) (map S l))
    = List.length (filter (fun i => is_transfer
        (pick (connections G (nth (i - 1) p "") (nth (S (i - 1)) p "")))
        (pick (connections G (nth i p "") (nth (S i) p "")))) l)).
  { induction l as [|i l IH]; intros Hl; [reflexivity|].
    inversion Hl; subst. cbn [map filter].
    replace (S i - 1)%nat with i by lia.
    replace (nth i (a :: p) "") with (nth (i - 1) p "")
      by (destruct i; [lia|simpl; now rewrite Nat.sub_0_r]).
    replace (S (i - 1)) with i by lia.
    change (nth (S i) (a :: p) "") with (nth i p "").
    change (nth (S (S i)) (a :: p) "") with (nth (S i) p "").
    destruct (is_transfer _ _); cbn [List.length]; rewrite IH by assumption; reflexivity. }
  assert (Hseq : Forall (fun i => 1 <= i)%nat (seq 1 (List.length rest))).
  { apply Forall_forall. intros i Hi. apply in_seq in Hi. lia. }
  unfold type_changes.
  replace (List.length (a :: p) - 2)%nat with (S (List.length rest)) by (simpl; lia).
  replace (List.length p - 2)%nat with (List.length rest) by (simpl; lia).
  cbn [seq filter]. rewrite <- seq_shift.
  change (nth (1 - 1) (a :: p) "") with a.
  change (nth (S (1 - 1)) (a :: p) "") with b.
  change (nth 1 (a :: p) "") with b.
  change (nth 2 (a :: p) "") with c.
  destruct (is_transfer (pick (connections G a b)) (pick (connections G b c)));
    cbn [List.length]; rewrite E by assumption; lia.
Qed.

Lemma transfers_loop_walk G path acc :
  walk G path ->
  transfers_loop G path acc = Ok (acc + type_changes first_type G path)%Z.
Proof.
  revert acc. induction path as [|a [|b [|c rest]] IH]; intros acc Hw;
    try (simpl; f_equal; unfold type_changes; simpl; lia).
  destruct Hw as [Hab Hw]. pose proof Hw as [Hbc _].
  rewrite transfers_loop_cons, !adj_item_Ok by assumption. cbn [bind].
  rewrite IH by assumption. rewrite type_changes_cons, is_transfer_scan. f_equal.
  destruct (is_transfer _ _); lia.
Qed.

Lemma transfers_loop_short G path acc :
  (List.length path <= 2)%nat -> transfers_loop G path acc = Ok acc.
Proof.
  destruct path as [|a [|b [|c rest]]]; simpl; try reflexivity. lia.
Qed.

Lemma type_changes_nonneg pick G path : (0 <= type_changes pick G path)%Z.
Proof. unfold type_changes. lia. Qed.

(** ** The search weight of a hop *)

Lemma Qltb_lt a b : Qltb a b = true <-> (a < b)%Q.
Proof.
  unfold Qltb. rewrite negb_true_iff. split.
  - intros H. apply Qnot_le_lt. intros Hle. apply Qle_bool_iff in Hle. congruence.
  - intros H. destruct (Qle_bool b a) eqn:E; [|reflexivity].
    apply Qle_bool_iff in E. exfalso. eapply Qlt_not_le; eauto.
Qed.

Lemma Qltb_ge a b : Qltb a b = false <-> (b <= a)%Q.
Proof.
  unfold Qltb. rewrite negb_false_iff. apply Qle_bool_iff.
Qed.

Lemma weight_step_edge_weights preferences kd acc :
  fold_left (weight_step preferences) kd acc
  = fold_left min_inf_Q (edge_weights preferences kd) acc.
Proof.
  revert acc. induction kd as [|e kd IH]; intros acc; simpl; [reflexivity|].
  unfold edge_weights in *. cbn [flat_map]. rewrite fold_left_app, IH. unfold weight_step.
  destruct (transport_type e), (travel_time e); reflexivity.
Qed.

Lemma min_inf_Q_fold l m :
  exists r, fold_left min_inf_Q l (Some m) = Some r /\ is_min_Q r (m :: l).
Proof.
  revert m. induction l as [|x l IH]; intros m; simpl.
  - exists m. split; [reflexivity|]. split; [now left|].
    intros y [<-|[]]. apply Qle_refl.
  - destruct (Qltb x m) eqn:E.
    + apply Qltb_lt in E. destruct (IH x) as [r [Hr [Hin Hle]]].
      exists r. split; [assumption|]. split.
      * destruct Hin as [<-|Hin]; [right; now left|right; now right].
      * intros y [<-|[<-|Hy]].
        -- apply Qle_trans with x; [apply Hle; now left|now apply Qlt_le_weak].
        -- apply Hle. now left.
        -- apply Hle. now right.
    + apply Qltb_ge in E. destruct (IH m) as [r [Hr [Hin Hle]]].
      exists r. split; [assumption|]. split.
      * destruct Hin as [<-|Hin]; [now left|right; now right].
      * intros y [<-|[<-|Hy]].
        -- apply Hle. now left.
        -- apply Qle_trans with m; [apply Hle; now left|assumption].
        -- apply Hle. now right.
Qed.

Lemma hop_weight_min preferences kd :
  (edge_weights preferences kd = [] -> hop_weight preferences kd = 1%Q)
  /\ (edge_weights preferences kd <> [] ->
      is_min_Q (hop_weight preferences kd) (edge_weights preferences kd)).
Proof.
  unfold hop_weight. rewrite weight_step_edge_weights.
  destruct (edge_weights preferences kd) as [|w ws].
  - split; [reflexivity|congruence].
  - split; [discriminate|]. intros _. simpl.
    destruct (min_inf_Q_fold ws w) as [r [-> Hr]]. exact Hr.
Qed.

Lemma edge_weights_nonneg preferences kd :
  (forall t m, dict_get preferences t = Some m -> (0 <= m)%Q) ->
  (forall e m, In e kd -> travel_time e = Some m -> (0 <= m)%Z) ->
  forall w, In w (edge_weights preferences kd) -> (0 <= w)%Q.
Proof.
  intros Hp Ht w Hw. unfold edge_weights in Hw. apply in_flat_map in Hw.
  destruct Hw as [e [He Hw]].
  destruct (transport_type e) as [t|]; [|destruct Hw].
  destruct (travel_time e) as [m|] eqn:Em; [|destruct Hw].
  destruct Hw as [<-|[]]. apply Qmult_le_0_compat.
  - specialize (Ht e m He Em). unfold Qle. simpl. lia.
  - unfold prefs_get. destruct (dict_get preferences t) eqn:E; [eauto|]. discriminate.
Qed.

Lemma hop_weight_nonneg preferences kd :
  (forall t m, dict_get preferences t = Some m -> (0 <= m)%Q) ->
  (forall e m, In e kd -> travel_time e = Some m -> (0 <= m)%Z) ->
  (0 <= hop_weight preferences kd)%Q.
Proof.
  intros Hp Ht. destruct (hop_weight_min preferences kd) as [H0 H1].
  destruct (edge_weights preferences kd) eqn:E.
  - rewrite H0 by reflexivity. discriminate.
  - rewrite <- E in *. destruct H1 as [Hin _]; [rewrite E; discriminate|].
    eapply edge_weights_nonneg; eauto.
Qed.


Lemma edge_weights_In preferences kd w :
  In w (edge_weights preferences kd)
  <-> exists e, In e kd /\ connection_weight preferences e = Some w.
Proof.
  unfold edge_weights, connection_weight. rewrite in_flat_map.
  split; intros [e [He H]]; exists e; (split; [assumption|]);
    destruct (transport_type e); try (destruct H; fail); try discriminate;
    destruct (travel_time e); try (destruct H; fail); try discriminate.
  - destruct H as [<-|[]]. reflexivity.
  - injection H as <-. now left.
Qed.


(** ** Paths on which the metrics return *)

Lemma total_time_loop_returns G path acc t :
  total_time_loop G path acc = Ok t -> walk G path.
Proof.
  revert acc. induction path as [|u [|v rest] IH]; intros acc H; simpl; trivial.
  rewrite total_time_loop_cons in H.
  destruct (adj_item G u v) as [kd|e] eqn:E; [|discriminate].
  apply adj_item_lookup in E. split; [congruence|]. eapply IH. exact H.
Qed.

Lemma find_optimal_route_Ok {T : Type} self start end_ (time : option T) preferences
    path total_time transfers :
  find_optimal_route self start end_ time preferences = Ok (path, total_time, transfers) ->
  _calculate_total_time self path = Ok total_time
  /\ _count_transfers self path = Ok transfers.
Proof.
  unfold find_optimal_route.
  destruct (negb (has_node (network self) start) || negb (has_node (network self) end_));
    [discriminate|].
  destruct (shortest_path _ _ _ _) as [p|e]; cbn [bind].
  2:{ destruct e; discriminate. }
  destruct (_calculate_total_time self p) as [t|e] eqn:Et; cbn [bind].
  2:{ destruct e; discriminate. }
  destruct (_count_transfers self p) as [c|e] eqn:Ec; cbn [bind].
  2:{ destruct e; discriminate. }
  intros [= <- <- <-]. split; assumption.
Qed.

(** * The claims *)

(** C1, as amended.  [_count_transfers] takes as the type of a hop the type
    of the first parallel connection, in insertion order, whose type is
    non-empty; on a path whose consecutive stations are adjacent it returns
    the number of interior stations where the type of the arriving hop and
    the type of the leaving hop are both present and differ; that number is
    non-negative, and it is 0 for every path of at most two stations. *)
Theorem count_transfers_first_listed_type :
  forall (self : TransportNetwork) (path : list string),
    (walk (network self) path ->
       _count_transfers self path = Ok (type_changes first_type (network self) path))
    /\ (0 <= type_changes first_type (network self) path)%Z
    /\ ((List.length path <= 2)%nat -> _count_transfers self path = Ok 0%Z).
Proof.
  intros self path. unfold _count_transfers. repeat split.
  - intros Hw. now rewrite transfers_loop_walk.
  - apply type_changes_nonneg.
  - apply transfers_loop_short.
Qed.

Lemma count_transfers_first_listed_type_witness :
  _count_transfers first_listed_network ["A"; "B"; "C"]
  = Ok (type_changes first_type (network first_listed_network) ["A"; "B"; "C"])
  /\ _count_transfers first_listed_network ["A"; "B"] = Ok 0%Z.
Proof.
  split.
  - apply (proj1 (count_transfers_first_listed_type first_listed_network ["A"; "B"; "C"])).
    vm_compute. repeat split; discriminate.
  - apply (proj2 (proj2 (count_transfers_first_listed_type first_listed_network ["A"; "B"]))).
    simpl. lia.
Defined.

(** C1 as stated fails: with the slower Metro connection recorded before the
    faster Bus connection on the first hop and a Bus connection on the
    second, the rule of least travel time sees no change of type, the code
    counts one transfer. *)
Lemma count_transfers_not_least_time_type :
  _count_transfers first_listed_network ["A"; "B"; "C"] = Ok 1%Z
  /\ type_changes least_time_type (network first_listed_network) ["A"; "B"; "C"] = 0%Z
  /\ _count_transfers first_listed_network ["A"; "B"; "C"]
     <> Ok (type_changes least_time_type (network first_listed_network) ["A"; "B"; "C"]).
Proof. repeat split; vm_compute; congruence. Qed.



(** C3, as amended.  On a path whose consecutive stations are adjacent,
    [_calculate_total_time] returns the sum over the hops of the least raw
    travel time among the parallel connections, whatever the preferences;
    a hop none of whose connections carries a time adds 0. *)
Theorem calculate_total_time_sum_of_least :
  forall (self : TransportNetwork) (path : list string),
    walk (network self) path ->
    _calculate_total_time self path = Ok (sum_of_least_times (network self) path)
    /\ (forall kd, edge_times kd = [] -> least_time kd = 0%Z)
    /\ (forall kd, edge_times kd <> [] -> is_min_Z (least_time kd) (edge_times kd)).
Proof.
  intros self path Hw. unfold _calculate_total_time. repeat split.
  - now rewrite total_time_loop_walk.
  - intros kd. apply least_time_is_min.
  - apply least_time_is_min. assumption.
  - apply least_time_is_min. assumption.
Qed.

Lemma calculate_total_time_sum_of_least_witness :
  _calculate_total_time create_sample_network ["North"; "Ramsis_square"; "South"; "West"]
  = Ok (sum_of_least_times (network create_sample_network)
          ["North"; "Ramsis_square"; "South"; "West"]).
Proof.
  apply (calculate_total_time_sum_of_least create_sample_network
           ["North"; "Ramsis_square"; "South"; "West"]).
  vm_compute. repeat split; discriminate.
Defined.

(** C3 as stated fails: for two stations of the sample network that no
    connection joins, the code raises [KeyError] instead of adding 0. *)
Lemma calculate_total_time_not_every_path :
  _calculate_total_time create_sample_network ["North"; "West"] = Raise (KeyError "West")
  /\ _calculate_total_time create_sample_network ["North"; "West"]
     <> Ok (sum_of_least_times (network create_sample_network) ["North"; "West"]).
Proof. split; vm_compute; congruence. Qed.

(** C4.  Two stations joined by a Metro connection of 10 minutes and a Bus
    connection of 8 minutes, preferences Metro 1 and Bus 2: the weights of
    the two connections are 10 and 16, the search weight of the hop is 10,
    the route is the single hop, and its total time is 8; in either order
    of recording the two connections. *)
Theorem parallel_edge_preference :
  edge_weights metro_bus_preferences (connections (network metro_then_bus) "A" "B")
  = [10%Q; 16%Q]
  /\ weight_function metro_then_bus metro_bus_preferences "A" "B" [] = Ok 10%Q
  /\ find_optimal_route (T:=unit) metro_then_bus "A" "B" None (Some metro_bus_preferences)
     = Ok (["A"; "B"], 8%Z, 0%Z)
  /\ _calculate_total_time metro_then_bus ["A"; "B"] = Ok 8%Z
  /\ weight_function bus_then_metro metro_bus_preferences "A" "B" [] = Ok 10%Q
  /\ find_optimal_route (T:=unit) bus_then_metro "A" "B" None (Some metro_bus_preferences)
     = Ok (["A"; "B"], 8%Z, 0%Z)
  /\ _calculate_total_time bus_then_metro ["A"; "B"] = Ok 8%Z.
Proof. repeat split; vm_compute; reflexivity. Qed.

(** C5.  When [find_optimal_route] returns [(path, total_time, transfers)],
    [total_time] is what [_calculate_total_time] returns on that path and
    [transfers] is what [_count_transfers] returns on it. *)
Theorem route_metrics_consistent :
  forall (T : Type) (self : TransportNetwork) (start end_ : string) (time : option T)
         (preferences : option (dict Q)) path total_time transfers,
    find_optimal_route self start end_ time preferences
      = Ok (path, total_time, transfers) ->
    _calculate_total_time self path = Ok total_time
    /\ _count_transfers self path = Ok transfers.
Proof. intros. eapply find_optimal_route_Ok; eauto. Qed.

Lemma route_metrics_consistent_witness :
  _calculate_total_time create_sample_network ["West"; "Airport"] = Ok 25%Z
  /\ _count_transfers create_sample_network ["West"; "Airport"] = Ok 0%Z.
Proof.
  apply (route_metrics_consistent unit create_sample_network "West" "Airport" None None).
  vm_compute. reflexivity.
Defined.

(** C6.  For a station [X] of the network, [find_optimal_route] from [X] to
    [X] returns the path [[X]], total time 0 and 0 transfers. *)
Theorem route_to_itself :
  forall (T : Type) (self : TransportNetwork) (X : string) (time : option T)
         (preferences : option (dict Q)),
    has_node (network self) X = true ->
    find_optimal_route self X X time preferences = Ok ([X], 0%Z, 0%Z).
Proof.
  intros T self X time preferences H.
  unfold find_optimal_route, shortest_path, bidirectional_dijkstra.
  rewrite H, String.eqb_refl. reflexivity.
Qed.

Lemma route_to_itself_witness :
  find_optimal_route (T:=unit) create_sample_network "West" "West" None None
  = Ok (["West"], 0%Z, 0%Z).
Proof. apply route_to_itself. vm_compute. reflexivity. Defined.

(** C8.  On a network made by the two operations, [add_connection] fails,
    with the invalid-transport-type error, exactly when the type is none of
    Metro, Bus, Train; a failing call leaves the network as it was; a
    succeeding call appends one connection to the parallel connections
    between [start] and [end_], seen from either end, makes both stations
    nodes whether or not they were added before, and changes no other
    pair. *)
Theorem add_connection_validates_type :
  forall ops start end_ ttype ttime sched,
    let self := build ops in
    let r := add_connection self start end_ ttype ttime sched in
    (fst r = Raise (invalid_transport_type self) <-> ~ In ttype enumerated_types)
    /\ (forall e, fst r = Raise e -> e = invalid_transport_type self /\ snd r = self)
    /\ (fst r = Ok tt <-> In ttype enumerated_types)
    /\ (fst r = Ok tt ->
        connections (network (snd r)) start end_
          = connections (network self) start end_ ++ [new_edge_data ttype ttime sched]
        /\ connections (network (snd r)) end_ start
          = connections (network self) start end_ ++ [new_edge_data ttype ttime sched]
        /\ has_node (network (snd r)) start = true
        /\ has_node (network (snd r)) end_ = true
        /\ (forall x y, pair_is x y start end_ = false ->
              connections (network (snd r)) x y = connections (network self) x y)).
Proof.
  intros ops start end_ ttype ttime sched self r.
  pose proof (network_ok_build ops) as [Hwf Hty Hts]. fold self in Hwf, Hty, Hts.
  destruct (str_in ttype (transport_types self)) eqn:E.
  - destruct (add_connection_ok self start end_ ttype ttime sched E) as [G' [Hr [HL [HA HN]]]].
    specialize (HN (wf_nodes _ Hwf)).
    apply str_in_In in E. rewrite Hts in E.
    subst r. rewrite Hr. cbn [fst snd with_graph network].
    repeat split; try (intros; discriminate); try tauto.
    + rewrite (connections_lookup G'), HL. unfold pair_is.
      now rewrite !String.eqb_refl.
    + rewrite (connections_lookup G'), HL. unfold pair_is.
      rewrite !String.eqb_refl. now rewrite orb_true_r.
    + unfold has_node. rewrite HN, String.eqb_refl. reflexivity.
    + unfold has_node. rewrite HN, String.eqb_refl. now rewrite orb_true_r.
    + intros x y Hp. rewrite !connections_lookup, HL, Hp. reflexivity.
  - subst r. rewrite add_connection_rejected by assumption. cbn [fst snd].
    assert (Hn : ~ In ttype enumerated_types).
    { rewrite <- Hts. intros H. apply str_in_In in H. congruence. }
    split; [tauto|]. split; [intros e [= <-]; now split|].
    split; [split; [discriminate|tauto]|discriminate].
Qed.

(** C9: the code breaks the invariant.  Recording the same pair with the
    same type twice leaves two Metro connections between the pair. *)
Theorem same_type_recorded_twice :
  map transport_type (connections (network (build twice_metro)) "A" "B")
  = [Some "Metro"; Some "Metro"]
  /\ map travel_time (connections (network (build twice_metro)) "A" "B")
     = [Some 10%Z; Some 12%Z]
  /\ ~ one_per_type (network (build twice_metro)).
Proof.
  repeat split; try (vm_compute; reflexivity).
  intros H. specialize (H "A" "B").
  assert (E : map transport_type (connections (network (build twice_metro)) "A" "B")
              = [Some "Metro"; Some "Metro"]) by (vm_compute; reflexivity).
  rewrite E in H. inversion H as [|x l Hn _]; subst. apply Hn. now left.
Qed.

(** C10.  The [time] argument has no influence: two calls that differ only
    in it have the same outcome, the value returned or the error raised. *)
Theorem time_argument_ignored :
  forall (T : Type) (self : TransportNetwork) (start end_ : string)
         (time1 time2 : option T) (preferences : option (dict Q)),
    find_optimal_route self start end_ time1 preferences
    = find_optimal_route self start end_ time2 preferences.
Proof. intros. reflexivity. Qed.

(** ** Walks and links *)



Lemma lookup_sym G u v : graph_wf G -> edge_lookup G u v <> None -> edge_lookup G v u <> None.
Proof.
  intros Hwf H. destruct (edge_lookup G u v) as [kd|] eqn:E; [|congruence].
  rewrite (wf_sym _ Hwf _ _ _ E). discriminate.
Qed.





Lemma walk_tail G u p : walk G (u :: p) -> walk G p.
Proof. destruct p; simpl; tauto. Qed.

Lemma walk_app G a x b : walk G (a ++ [x]) -> walk G (x :: b) -> walk G (a ++ x :: b).
Proof.
  induction a as [|y a IH]; intros Ha Hb; [exact Hb|].
  destruct a as [|z a].
  - simpl in *. tauto.
  - destruct Ha as [Hyz Ha]. split; [assumption|]. apply IH; assumption.
Qed.

Lemma walk_snoc G q v w :
  walk G (q ++ [v]) -> edge_lookup G v w <> None -> walk G ((q ++ [v]) ++ [w]).
Proof.
  intros Hq Hvw. rewrite <- app_assoc. apply walk_app; simpl; tauto.
Qed.

Lemma walk_rev G p : graph_wf G -> walk G p -> walk G (rev p).
Proof.
  intros Hwf. induction p as [|u p IH]; intros Hw; [exact I|].
  destruct p as [|v p]; [exact I|].
  destruct Hw as [Huv Hw]. specialize (IH Hw).
  change (rev (u :: v :: p)) with ((rev p ++ [v]) ++ [u]).
  apply walk_snoc; [exact IH|]. now apply lookup_sym.
Qed.


(** ** The heap *)

Lemma heappop_spec h m rest :
  heappop h = Some (m, rest) ->
  (forall e, In e h <-> e = m \/ In e rest)
  /\ (forall e, In e rest -> (entry_dist m <= entry_dist e)%Q)
  /\ List.length h = S (List.length rest).
Proof.
  revert m rest. induction h as [|x h IH]; intros m rest H; simpl in H; [discriminate|].
  destruct (heappop h) as [[m' rest']|] eqn:E.
  - destruct (IH _ _ eq_refl) as [Hin [Hmin Hlen]].
    destruct (entry_lt m' x) eqn:Elt; injection H as <- <-.
    + split; [|split].
      * intros e. simpl. rewrite Hin. intuition congruence.
      * intros e [<-|He]; [|auto].
        unfold entry_lt in Elt. apply orb_true_iff in Elt. destruct Elt as [Hl|Hq].
        -- apply Qltb_lt in Hl. now apply Qlt_le_weak.
        -- apply andb_true_iff in Hq. destruct Hq as [Hq _].
           apply Qeq_bool_iff in Hq. rewrite Hq. apply Qle_refl.
      * simpl. now rewrite Hlen.
    + split; [|split].
      * intros e. simpl. intuition congruence.
      * unfold entry_lt in Elt. apply orb_false_iff in Elt. destruct Elt as [Hl _].
        apply Qltb_ge in Hl. intros e He. apply Hin in He. destruct He as [->|He].
        -- assumption.
        -- eapply Qle_trans; [exact Hl|]. auto.
      * reflexivity.
  - injection H as <- <-. destruct h as [|y h]; [|simpl in E; destruct (heappop h) as [[? ?]|];
      [destruct (entry_lt e y)|]; discriminate].
    split; [|split]; simpl; try tauto. intros e. intuition congruence.
Qed.


(** ** The potential *)


(** ** The search keeps its invariants *)

Lemma side_set_side st dir s : side (set_side st dir s) dir = s.
Proof. destruct dir; reflexivity. Qed.

Lemma side_set_side_flip st dir s : side (set_side st dir s) (flip dir) = side st (flip dir).
Proof. destruct dir; reflexivity. Qed.

Lemma finalpath_set_side st dir s : finalpath (set_side st dir s) = finalpath st.
Proof. destruct dir; reflexivity. Qed.

Lemma side_advance st dir s : side (advance st dir s) dir = s.
Proof. destruct dir; reflexivity. Qed.

Lemma side_advance_flip st dir s : side (advance st dir s) (flip dir) = side st (flip dir).
Proof. destruct dir; reflexivity. Qed.

Lemma flip_flip dir : flip (flip dir) = dir.
Proof. destruct dir; reflexivity. Qed.

Lemma side_cases dir d : d = dir \/ d = flip dir.
Proof. destruct dir, d; auto. Qed.

Lemma get_or_get {A : Type} (d : dict A) k a default :
  dict_get d k = Some a -> get_or d k default = a.
Proof. unfold get_or. now intros ->. Qed.

Section SearchFacts.
Variable G : MultiGraph.
Variable weight : string -> string -> keydict -> result (option Q).
Variables source target : string.
Hypothesis Hwf : graph_wf G.
Hypothesis Hweight : forall u v d, edge_lookup G u v <> None ->
  exists c, weight u v d = Ok (Some c) /\ (0 <= c)%Q.
Hypothesis Hne : source <> target.
Hypothesis Hsource : in_adj G source = true.
Hypothesis Htarget : in_adj G target = true.











Lemma items_adjacent v items w d :
  dict_get (_adj G) v = Some items -> In (w, d) items -> edge_lookup G v w <> None.
Proof.
  intros Hi Hin. unfold edge_lookup, adj_lookup. rewrite Hi.
  apply In_dict_mem in Hin. apply dict_mem_true in Hin. destruct Hin as [kd ->].
  discriminate.
Qed.


End SearchFacts.

(** ** The search from its initial state *)




Lemma default_preferences_nonneg t m :
  dict_get default_preferences t = Some m -> (0 <= m)%Q.
Proof.
  unfold default_preferences. simpl.
  repeat (destruct (String.eqb t _); [intros [= <-]; discriminate|]).
  discriminate.
Qed.


Lemma find_optimal_route_unfold {T : Type} self start end_ (time : option T) preferences :
  find_optimal_route self start end_ time preferences =
  if negb (has_node (network self) start) || negb (has_node (network self) end_)
  then Raise station_not_found
  else
    match (path <- bidirectional_dijkstra (network self)
                     (route_weight self (effective_preferences preferences)) start end_ ;;
           total_time <- _calculate_total_time self path ;;
           transfers <- _count_transfers self path ;;
           Ok (path, total_time, transfers)) with
    | Raise (NetworkXNoPath _) => Raise (no_path_found start end_)
    | r => r
    end.
Proof.
  unfold find_optimal_route, shortest_path, route_weight, effective_preferences.
  destruct (negb (has_node (network self) start) || negb (has_node (network self) end_));
    [reflexivity|].
  cbv zeta.
  destruct (bidirectional_dijkstra _ _ _ _) as [p|e]; cbn [bind].
  2:{ destruct e; reflexivity. }
  destruct (_calculate_total_time self p) as [t|e]; cbn [bind].
  2:{ destruct e; reflexivity. }
  destruct (_count_transfers self p) as [c|e]; cbn [bind]; [reflexivity|].
  destruct e; reflexivity.
Qed.





Lemma sample_times_nonneg : Forall time_nonneg sample_operations.
Proof. repeat constructor; simpl; lia. Defined.





(** A negative multiplier does the same on travel times that are not
    negative: the amended C7 asks for both. *)
Example negative_multiplier_defeats_search :
  find_optimal_route (T:=unit) (build train_shortcut_operations) "A" "F" None
    (Some negative_train_preferences)
  = Raise contradictory.
Proof. vm_compute. reflexivity. Qed.

(** * Further properties of the code *)

(** ** [_generate_schedule] *)





(** ** [add_station] *)

Lemma dict_set_set {V : Type} (d : dict V) k v v' :
  dict_set (dict_set d k v) k v' = dict_set d k v'.
Proof.
  induction d as [|[k0 v0] d IH]; simpl.
  - now rewrite String.eqb_refl.
  - destruct (String.eqb k k0) eqn:E; simpl; rewrite E; [reflexivity|]. now rewrite IH.
Qed.

(** X2.  [add_station] makes the station a node with the given capacity and
    coordinates and records the capacity; nothing changes for any other
    station; adding the same station again replaces what the first call
    wrote, as if the first call had not been made. *)
Theorem add_station_records :
  forall (self : TransportNetwork) (station_id : string) (cap : Z)
         (coords : option (Q * Q)) (rnd : Q * Q),
    let self' := add_station self station_id cap coords rnd in
    has_node (network self') station_id = true
    /\ dict_get (station_capacity self') station_id = Some cap
    /\ dict_get (_node (network self')) station_id
       = Some (mkNodeData (Some cap) (Some match coords with Some c => c | None => rnd end))
    /\ (forall x, x <> station_id ->
          has_node (network self') x = has_node (network self) x
          /\ dict_get (station_capacity self') x = dict_get (station_capacity self) x
          /\ dict_get (_node (network self')) x = dict_get (_node (network self)) x)
    /\ (forall cap2 coords2 rnd2,
          add_station self' station_id cap2 coords2 rnd2
          = add_station self station_id cap2 coords2 rnd2).
Proof.
  intros self id cap coords rnd self'. subst self'.
  unfold add_station, has_node, add_node. cbn [network station_capacity _node _adj].
  split; [now rewrite dict_mem_set, String.eqb_refl|].
  split; [now rewrite dict_get_set, String.eqb_refl|].
  split; [now rewrite dict_get_set, String.eqb_refl|].
  split.
  - intros x Hx. apply String.eqb_neq in Hx.
    rewrite dict_mem_set, !dict_get_set, Hx. auto.
  - intros cap2 coords2 rnd2. rewrite !dict_set_set, dict_mem_set, String.eqb_refl.
    cbn [orb]. reflexivity.
Qed.

(** ** The connections of a built network *)

Lemma connections_sym G u v : graph_wf G -> connections G u v = connections G v u.
Proof.
  intros Hwf. rewrite !connections_lookup.
  destruct (edge_lookup G u v) as [kd|] eqn:E.
  - now rewrite (wf_sym _ Hwf _ _ _ E).
  - destruct (edge_lookup G v u) as [kd|] eqn:E'; [|reflexivity].
    rewrite (wf_sym _ Hwf _ _ _ E') in E. discriminate.
Qed.

Lemma connections_apply self o u v :
  network_ok self ->
  connections (network (apply_operation self o)) u v
  = connections (network self) u v ++ recorded u v [o].
Proof.
  intros [Hwf Hty Hts]. unfold recorded. cbn [flat_map]. rewrite app_nil_r.
  destruct o as [id cap coords rnd|a b ttype ttime sched]; cbn [apply_operation].
  - rewrite app_nil_r, !connections_lookup. cbn [add_station network].
    now rewrite edge_lookup_add_node by apply Hwf.
  - rewrite <- Hts. destruct (str_in ttype (transport_types self)) eqn:E.
    + destruct (add_connection_ok self a b ttype ttime sched E) as [G' [-> [HL _]]].
      cbn [snd with_graph network]. rewrite andb_true_r.
      rewrite (connections_lookup G'), HL.
      destruct (pair_is u v a b) eqn:Ep.
      * apply pair_is_true in Ep. destruct Ep as [[-> ->]|[-> ->]]; [reflexivity|].
        now rewrite (connections_sym _ b a Hwf).
      * rewrite app_nil_r. symmetry. apply connections_lookup.
    + rewrite add_connection_rejected by assumption. cbn [snd].
      now rewrite andb_false_r, app_nil_r.
Qed.

Lemma connections_fold ops self u v :
  network_ok self ->
  connections (network (fold_left apply_operation ops self)) u v
  = connections (network self) u v ++ recorded u v ops.
Proof.
  revert self. induction ops as [|o ops IH]; intros self Hok.
  - simpl. now rewrite app_nil_r.
  - cbn [fold_left]. rewrite IH by now apply network_ok_apply.
    rewrite connections_apply by assumption. rewrite <- app_assoc. f_equal.
    unfold recorded. cbn [flat_map]. now rewrite app_nil_r.
Qed.

Lemma connections_build ops u v :
  connections (network (build ops)) u v = recorded u v ops.
Proof.
  unfold build. rewrite connections_fold by apply network_ok_init. reflexivity.
Qed.

(** X3.  The parallel connections between two stations of a built network
    are exactly the connections that the operations recorded between them,
    in the order of recording and whichever end was named first: nothing is
    lost, merged or reordered, and the graph is undirected. *)
Theorem connections_are_the_recorded_ones :
  forall (ops : list operation) (u v : string),
    connections (network (build ops)) u v = recorded u v ops
    /\ connections (network (build ops)) u v = connections (network (build ops)) v u.
Proof.
  intros ops u v. split.
  - apply connections_build.
  - apply connections_sym. apply network_ok_build.
Qed.

(** X4.  Every connection of a built network was recorded by a call of
    [add_connection] between the same two stations and carries what the
    call gave: one of the three transport types, the travel time, and as
    schedule the given one when it is not empty, the default one of
    [_generate_schedule] (05:00 to 23:00, every 15 minutes) when none or an
    empty one was given; the schedule is never empty. *)
Theorem connections_carry_data :
  forall (ops : list operation) (u v : string) (e : EdgeData),
    In e (connections (network (build ops)) u v) ->
    exists start end_ t m sched,
      In (AddConnection start end_ t m sched) ops
      /\ pair_is u v start end_ = true
      /\ In t enumerated_types
      /\ transport_type e = Some t
      /\ travel_time e = Some m
      /\ ((exists x l, sched = Some (x :: l) /\ schedule e = Some (x :: l))
          \/ ((sched = None \/ sched = Some [])
              /\ schedule e = Some (_generate_schedule 5 23 15)))
      /\ (exists s, schedule e = Some s /\ s <> []).
Proof.
  intros ops u v e He.
  rewrite connections_build in He.
  unfold recorded in He. apply in_flat_map in He. destruct He as [o [Ho He]].
  destruct o as [|a b ttype ttime sched]; [destruct He|].
  destruct (pair_is u v a b && str_in ttype enumerated_types) eqn:E; [|destruct He].
  destruct He as [<-|[]]. apply andb_true_iff in E. destruct E as [Ep E].
  apply str_in_In in E. unfold new_edge_data. cbn [transport_type travel_time schedule].
  exists a, b, ttype, ttime, sched.
  split; [assumption|]. split; [assumption|]. split; [assumption|].
  split; [reflexivity|]. split; [reflexivity|].
  destruct sched as [[|x l]|].
  - split; [right; split; [now right|reflexivity]|].
    eexists. split; [reflexivity|]. vm_compute. discriminate.
  - split; [left; exists x, l; split; reflexivity|].
    eexists. split; [reflexivity|]. discriminate.
  - split; [right; split; [now left|reflexivity]|].
    eexists. split; [reflexivity|]. vm_compute. discriminate.
Qed.

Lemma connections_carry_data_witness :
  (exists start end_ t m sched,
      In (AddConnection start end_ t m sched) sample_operations
      /\ pair_is "North" "Ramsis_square" start end_ = true
      /\ In t enumerated_types
      /\ transport_type (new_edge_data "Metro" 21 None) = Some t
      /\ travel_time (new_edge_data "Metro" 21 None) = Some m
      /\ ((exists x l, sched = Some (x :: l)
                       /\ schedule (new_edge_data "Metro" 21 None) = Some (x :: l))
          \/ ((sched = None \/ sched = Some [])
              /\ schedule (new_edge_data "Metro" 21 None)
                 = Some (_generate_schedule 5 23 15)))
      /\ (exists s, schedule (new_edge_data "Metro" 21 None) = Some s /\ s <> []))
  /\ (exists start end_ t m sched,
        In (AddConnection start end_ t m sched) given_schedule_operations
        /\ pair_is "A" "B" start end_ = true
        /\ In t enumerated_types
        /\ transport_type (new_edge_data "Bus" 8 (Some ["06:00"; "18:00"])) = Some t
        /\ travel_time (new_edge_data "Bus" 8 (Some ["06:00"; "18:00"])) = Some m
        /\ ((exists x l, sched = Some (x :: l)
                         /\ schedule (new_edge_data "Bus" 8 (Some ["06:00"; "18:00"]))
                            = Some (x :: l))
            \/ ((sched = None \/ sched = Some [])
                /\ schedule (new_edge_data "Bus" 8 (Some ["06:00"; "18:00"]))
                   = Some (_generate_schedule 5 23 15)))
        /\ (exists s, schedule (new_edge_data "Bus" 8 (Some ["06:00"; "18:00"])) = Some s
                      /\ s <> [])).
Proof.
  split.
  - apply (connections_carry_data sample_operations "North" "Ramsis_square").
    vm_compute. left. reflexivity.
  - apply (connections_carry_data given_schedule_operations "A" "B").
    vm_compute. left. reflexivity.
Defined.

(** ** The node sizes of [visualize_network] *)

Lemma In_keys_mem {V : Type} (d : dict V) k : In k (map fst d) <-> dict_mem d k = true.
Proof.
  split.
  - intros H. apply in_map_iff in H. destruct H as [[k' v] [<- H]].
    eapply In_dict_mem. exact H.
  - intros H. apply dict_mem_true in H. destruct H as [v H].
    apply dict_get_In in H. apply in_map_iff. now exists (k, v).
Qed.

Lemma node_sizes_of_spec caps nodes :
  ((forall x, In x nodes -> dict_mem caps x = true) ->
   node_sizes_of caps nodes = Ok (map (fun x => (get_or caps x 0 * 100)%Z) nodes))
  /\ (forall e, node_sizes_of caps nodes = Raise e ->
        exists k, e = KeyError k /\ In k nodes /\ dict_mem caps k = false).
Proof.
  induction nodes as [|n nodes [IH1 IH2]]; cbn [node_sizes_of].
  - split; [reflexivity|discriminate].
  - unfold dict_item, get_or, dict_mem in *. cbn [map]. split.
    + intros H. pose proof (H n (or_introl eq_refl)) as Hn.
      destruct (dict_get caps n) as [c|]; [|discriminate]. cbn [bind].
      rewrite IH1 by (intros x Hx; apply H; now right). reflexivity.
    + intros e. destruct (dict_get caps n) as [c|] eqn:E; cbn [bind].
      * destruct (node_sizes_of caps nodes) as [sizes|e'] eqn:E'; cbn [bind];
          [discriminate|].
        intros [= <-]. destruct (IH2 e' eq_refl) as [k [Hk [Hin Hm]]].
        exists k. split; [assumption|]. split; [now right|assumption].
      * intros [= <-]. exists n. split; [reflexivity|]. split; [now left|].
        now rewrite E.
Qed.

Lemma capacity_mem_apply self o x :
  dict_mem (station_capacity (apply_operation self o)) x = true
  <-> dict_mem (station_capacity self) x = true \/ adds_station x o.
Proof.
  destruct o as [id cap coords rnd|a b ttype ttime sched];
    cbn [apply_operation adds_station].
  - cbn [add_station station_capacity]. rewrite dict_mem_set, orb_true_iff, String.eqb_eq.
    intuition congruence.
  - destruct (str_in ttype (transport_types self)) eqn:E.
    + destruct (add_connection_ok self a b ttype ttime sched E) as [G' [-> _]].
      cbn. tauto.
    + rewrite add_connection_rejected by assumption. cbn. tauto.
Qed.

Lemma capacity_mem_fold ops self x :
  dict_mem (station_capacity (fold_left apply_operation ops self)) x = true
  <-> dict_mem (station_capacity self) x = true \/ Exists (adds_station x) ops.
Proof.
  revert self. induction ops as [|o ops IH]; intros self; cbn [fold_left].
  - rewrite Exists_nil. tauto.
  - rewrite IH, capacity_mem_apply, Exists_cons. tauto.
Qed.

Lemma node_sizes_of_Ok caps nodes sizes :
  node_sizes_of caps nodes = Ok sizes -> forall x, In x nodes -> dict_mem caps x = true.
Proof.
  revert sizes. induction nodes as [|n nodes IH]; intros sizes H x Hx; [destruct Hx|].
  cbn [node_sizes_of] in H. unfold dict_item, dict_mem in *.
  destruct (dict_get caps n) as [c|] eqn:E; cbn [bind] in H; [|discriminate].
  destruct (node_sizes_of caps nodes) as [rest|e] eqn:E'; cbn [bind] in H; [|discriminate].
  destruct Hx as [<-|Hx]; [now rewrite E|]. eapply IH; [reflexivity|assumption].
Qed.

(** X5.  The node sizes [visualize_network] computes exist exactly when
    every station of the network was added by [add_station]: then there is
    one size per node, 100 times its capacity; when some station only
    entered as an end of a connection, it has no recorded capacity and the
    computation raises [KeyError] for such a station, and it raises nothing
    else. *)
Theorem node_sizes_need_add_station :
  forall ops : list operation,
    ((exists sizes, node_sizes (build ops) = Ok sizes)
     <-> (forall x, present ops x -> Exists (adds_station x) ops))
    /\ ((forall x, present ops x -> Exists (adds_station x) ops) ->
        node_sizes (build ops)
        = Ok (map (fun x => (get_or (station_capacity (build ops)) x 0 * 100)%Z)
                  (map fst (_node (network (build ops))))))
    /\ (forall x, present ops x -> ~ Exists (adds_station x) ops ->
          exists k, node_sizes (build ops) = Raise (KeyError k)
                    /\ present ops k /\ ~ Exists (adds_station k) ops)
    /\ (forall e, node_sizes (build ops) = Raise e ->
          exists k, e = KeyError k /\ present ops k /\ ~ Exists (adds_station k) ops).
Proof.
  intros ops. unfold node_sizes.
  destruct (node_sizes_of_spec (station_capacity (build ops))
              (map fst (_node (network (build ops))))) as [H1 H2].
  assert (Hcap : forall x, dict_mem (station_capacity (build ops)) x = true
                           <-> Exists (adds_station x) ops).
  { intros x. unfold build. rewrite capacity_mem_fold. cbn.
    split; [intros [H|H]; [discriminate|assumption]|tauto]. }
  assert (Hnode : forall x, In x (map fst (_node (network (build ops)))) <-> present ops x).
  { intros x. rewrite In_keys_mem. apply has_node_build. }
  assert (Hok : forall sizes,
             node_sizes_of (station_capacity (build ops))
                           (map fst (_node (network (build ops)))) = Ok sizes ->
             forall x, present ops x -> Exists (adds_station x) ops).
  { intros sizes Hs x Hx. apply Hcap. eapply node_sizes_of_Ok; [exact Hs|].
    now apply Hnode. }
  assert (Hraise : forall e,
             node_sizes_of (station_capacity (build ops))
                           (map fst (_node (network (build ops)))) = Raise e ->
             exists k, e = KeyError k /\ present ops k /\ ~ Exists (adds_station k) ops).
  { intros e He. destruct (H2 e He) as [k [Hk [Hin Hm]]].
    exists k. split; [assumption|]. split; [now apply Hnode|].
    intros Ha. apply Hcap in Ha. congruence. }
  assert (Hall : (forall x, present ops x -> Exists (adds_station x) ops) ->
             node_sizes_of (station_capacity (build ops))
                           (map fst (_node (network (build ops))))
             = Ok (map (fun x => (get_or (station_capacity (build ops)) x 0 * 100)%Z)
                       (map fst (_node (network (build ops)))))).
  { intros H. apply H1. intros x Hx. apply Hcap, H, Hnode, Hx. }
  split; [|split; [|split]].
  - split.
    + intros [sizes Hs]. exact (Hok sizes Hs).
    + intros H. eexists. apply Hall. exact H.
  - exact Hall.
  - intros x Hx Hn.
    destruct (node_sizes_of (station_capacity (build ops))
                            (map fst (_node (network (build ops))))) as [sizes|e] eqn:E.
    + exfalso. apply Hn. exact (Hok sizes eq_refl x Hx).
    + destruct (Hraise e eq_refl) as [k [-> Hk]]. exists k. split; [reflexivity|exact Hk].
  - exact Hraise.
Qed.

Lemma node_sizes_need_add_station_witness :
  node_sizes (build sample_operations)
  = Ok (map (fun x => (get_or (station_capacity (build sample_operations)) x 0 * 100)%Z)
            (map fst (_node (network (build sample_operations)))))
  /\ (exists k, node_sizes (build unadded_end_operations) = Raise (KeyError k)
                /\ present unadded_end_operations k
                /\ ~ Exists (adds_station k) unadded_end_operations).
Proof.
  split.
  - apply (proj1 (proj2 (node_sizes_need_add_station sample_operations))).
    intros x Hx. apply has_node_build in Hx. unfold has_node in Hx.
    apply In_keys_mem in Hx.
    assert (F : forallb (fun k => dict_mem (station_capacity (build sample_operations)) k)
                        (map fst (_node (network (build sample_operations)))) = true)
      by (vm_compute; reflexivity).
    rewrite forallb_forall in F. specialize (F x Hx).
    unfold build in F. apply capacity_mem_fold in F.
    destruct F as [F|F]; [discriminate|exact F].
  - apply (proj1 (proj2 (proj2 (node_sizes_need_add_station unadded_end_operations))) "B").
    + apply has_node_build. reflexivity.
    + intros H. apply Exists_exists in H. destruct H as [o [Ho Ha]].
      destruct Ho as [<-|[<-|[]]]; simpl in Ha; [discriminate|exact Ha].
Defined.

(** ** When the metrics fail, and bounds on what they return *)

Lemma adj_item_raises G u v e :
  adj_item G u v = Raise e -> e = KeyError u \/ e = KeyError v.
Proof.
  unfold adj_item, dict_item, bind.
  destruct (dict_get (_adj G) u) as [d|]; [|intros [= <-]; now left].
  destruct (dict_get d v); [discriminate|]. intros [= <-]. now right.
Qed.

Lemma total_time_loop_raises G path acc e :
  total_time_loop G path acc = Raise e -> exists k, e = KeyError k /\ In k path.
Proof.
  revert acc. induction path as [|u [|v rest] IH]; intros acc H; try discriminate.
  rewrite total_time_loop_cons in H.
  destruct (adj_item G u v) as [kd|e'] eqn:E; cbn [bind] in H.
  - destruct (IH _ H) as [k [Hk Hin]]. exists k. split; [assumption|now right].
  - injection H as Heq; subst e. apply adj_item_raises in E.
    destruct E as [-> | ->]; eexists; (split; [reflexivity|]); simpl; auto.
Qed.

Lemma transfers_loop_raises G path acc e :
  transfers_loop G path acc = Raise e -> exists k, e = KeyError k /\ In k path.
Proof.
  revert acc. induction path as [|a [|b [|c rest]] IH]; intros acc H; try discriminate.
  rewrite transfers_loop_cons in H.
  destruct (adj_item G a b) as [kd1|e'] eqn:E1; cbn [bind] in H.
  2:{ injection H as Heq; subst e. apply adj_item_raises in E1.
      destruct E1 as [-> | ->]; eexists; (split; [reflexivity|]); simpl; auto. }
  destruct (adj_item G b c) as [kd2|e'] eqn:E2; cbn [bind] in H.
  2:{ injection H as Heq; subst e. apply adj_item_raises in E2.
      destruct E2 as [-> | ->]; eexists; (split; [reflexivity|]); simpl; auto. }
  destruct (IH _ H) as [k [Hk Hin]]. exists k. split; [assumption|now right].
Qed.

Lemma transfers_loop_returns G path acc c :
  transfers_loop G path acc = Ok c -> (3 <= List.length path)%nat -> walk G path.
Proof.
  revert acc. induction path as [|a [|b [|x rest]] IH]; intros acc H Hlen;
    try (simpl in Hlen; lia).
  rewrite transfers_loop_cons in H.
  destruct (adj_item G a b) as [kd1|e'] eqn:E1; cbn [bind] in H; [|discriminate].
  destruct (adj_item G b x) as [kd2|e'] eqn:E2; cbn [bind] in H; [|discriminate].
  apply adj_item_lookup in E1, E2. split; [congruence|].
  destruct rest as [|y rest].
  - split; [congruence|exact I].
  - eapply IH; [exact H|simpl; lia].
Qed.

(** X6.  [_calculate_total_time] returns a value exactly on the paths whose
    consecutive stations are adjacent; on any other path it raises
    [KeyError], for a station of the path, and it raises nothing else. *)
Theorem calculate_total_time_failure :
  forall (self : TransportNetwork) (path : list string),
    ((exists t, _calculate_total_time self path = Ok t) <-> walk (network self) path)
    /\ (forall e, _calculate_total_time self path = Raise e ->
          exists k, e = KeyError k /\ In k path).
Proof.
  intros self path. unfold _calculate_total_time. split; [split|].
  - intros [t H]. eapply total_time_loop_returns. exact H.
  - intros H. rewrite total_time_loop_walk by assumption. eauto.
  - apply total_time_loop_raises.
Qed.

(** X7.  [_count_transfers] returns a value exactly on the paths that have
    at most two stations or whose consecutive stations are adjacent; on any
    other path it raises [KeyError], for a station of the path, and nothing
    else.  What it returns is at least 0 and at most the number of interior
    stations. *)
Theorem count_transfers_failure_and_bound :
  forall (self : TransportNetwork) (path : list string),
    ((exists c, _count_transfers self path = Ok c)
     <-> (List.length path <= 2)%nat \/ walk (network self) path)
    /\ (forall e, _count_transfers self path = Raise e ->
          exists k, e = KeyError k /\ In k path)
    /\ (forall c, _count_transfers self path = Ok c ->
          (0 <= c <= Z.of_nat (List.length path - 2))%Z).
Proof.
  intros self path. unfold _count_transfers.
  assert (Hret : forall c, transfers_loop (network self) path 0 = Ok c ->
                           (List.length path <= 2)%nat \/ walk (network self) path).
  { intros c H. destruct (Nat.le_gt_cases (List.length path) 2) as [Hl|Hl]; [now left|].
    right. eapply transfers_loop_returns; [exact H|lia]. }
  split; [split|split].
  - intros [c H]. eapply Hret. exact H.
  - intros [H|H].
    + rewrite transfers_loop_short by assumption. eauto.
    + rewrite transfers_loop_walk by assumption. eauto.
  - apply transfers_loop_raises.
  - intros c H. destruct (Hret c H) as [Hl|Hw].
    + rewrite transfers_loop_short in H by assumption. injection H as Heq; subst c. lia.
    + rewrite transfers_loop_walk in H by assumption. injection H as Heq; subst c.
      cbn [Z.add]. unfold type_changes. split; [lia|].
      apply inj_le. eapply Nat.le_trans; [apply filter_length_le|].
      now rewrite length_seq.
Qed.

Lemma least_time_nonneg kd :
  (forall e m, In e kd -> travel_time e = Some m -> (0 <= m)%Z) -> (0 <= least_time kd)%Z.
Proof.
  intros H. destruct (least_time_is_min kd) as [H0 H1].
  destruct (edge_times kd) as [|t ts] eqn:E.
  - rewrite H0 by reflexivity. lia.
  - destruct H1 as [Hin _]; [discriminate|].
    rewrite <- E in Hin. unfold edge_times in Hin. apply in_flat_map in Hin.
    destruct Hin as [e [He Hin]]. destruct (travel_time e) as [m|] eqn:Em; [|destruct Hin].
    destruct Hin as [<-|[]]. eapply H; eassumption.
Qed.

Lemma sum_of_least_times_nonneg G path :
  times_nonneg G -> (0 <= sum_of_least_times G path)%Z.
Proof.
  intros Ht. unfold sum_of_least_times.
  induction (seq 0 (List.length path - 1)) as [|i l IH]; cbn [map fold_right]; [lia|].
  assert (0 <= least_time (connections G (nth i path "") (nth (S i) path "")))%Z; [|lia].
  apply least_time_nonneg. intros e m He Hm. apply in_connections in He.
  destruct He as [kd [Hk He]]. eapply Ht; eassumption.
Qed.

(** X8.  On a network built from operations none of which records a
    negative travel time, the total time [_calculate_total_time] returns is
    never negative. *)
Theorem total_time_nonneg :
  forall (ops : list operation) (path : list string) (t : Z),
    Forall time_nonneg ops ->
    _calculate_total_time (build ops) path = Ok t ->
    (0 <= t)%Z.
Proof.
  intros ops path t Hops H.
  pose proof H as Hw. apply total_time_loop_returns in Hw.
  unfold _calculate_total_time in H. rewrite total_time_loop_walk in H by assumption.
  injection H as Heq; subst t. cbn [Z.add].
  apply sum_of_least_times_nonneg. now apply times_nonneg_build.
Qed.

Lemma total_time_nonneg_witness : (0 <= 66)%Z.
Proof.
  apply (total_time_nonneg sample_operations ["North"; "Ramsis_square"; "South"; "West"]).
  - exact sample_times_nonneg.
  - vm_compute. reflexivity.
Defined.

(** ** The metrics of a path walked backwards *)

Lemma sum_of_least_times_short G x : sum_of_least_times G [x] = 0%Z.
Proof. reflexivity. Qed.

Lemma sum_of_least_times_join G a x b :
  sum_of_least_times G (a ++ x :: b)
  = (sum_of_least_times G (a ++ [x]) + sum_of_least_times G (x :: b))%Z.
Proof.
  induction a as [|u a IH].
  - cbn [app]. rewrite sum_of_least_times_short. lia.
  - destruct a as [|w a].
    + cbn [app]. rewrite !sum_of_least_times_cons, sum_of_least_times_short. lia.
    + cbn [app] in *. rewrite !sum_of_least_times_cons, IH. lia.
Qed.

Lemma sum_of_least_times_rev G path :
  graph_wf G -> sum_of_least_times G (rev path) = sum_of_least_times G path.
Proof.
  intros Hwf. induction path as [|u [|v rest] IH]; try reflexivity.
  change (rev (u :: v :: rest)) with (rev (v :: rest) ++ [u]).
  cbn [rev] in *. rewrite <- app_assoc. cbn [app].
  rewrite sum_of_least_times_join, IH, !sum_of_least_times_cons, sum_of_least_times_short.
  rewrite (connections_sym G v u Hwf). lia.
Qed.

Lemma is_transfer_sym a b : is_transfer a b = is_transfer b a.
Proof.
  unfold is_transfer. rewrite (andb_comm (truthy a)). f_equal. f_equal.
  destruct a as [x|], b as [y|]; simpl; try reflexivity. apply String.eqb_sym.
Qed.

Lemma type_changes_short pick G x y : type_changes pick G [x; y] = 0%Z.
Proof. reflexivity. Qed.

Lemma type_changes_join pick G a x y b :
  type_changes pick G (a ++ x :: y :: b)
  = (type_changes pick G (a ++ [x; y]) + type_changes pick G (x :: y :: b))%Z.
Proof.
  induction a as [|u a IH].
  - cbn [app]. rewrite type_changes_short. lia.
  - destruct a as [|w a].
    + cbn [app]. rewrite !type_changes_cons, type_changes_short. lia.
    + destruct a as [|z a].
      * cbn [app] in *. rewrite !type_changes_cons in *. rewrite IH. lia.
      * cbn [app] in *. rewrite !(type_changes_cons _ _ u w z), IH. lia.
Qed.

Lemma type_changes_rev pick G path :
  graph_wf G -> type_changes pick G (rev path) = type_changes pick G path.
Proof.
  intros Hwf. induction path as [|a [|b [|c rest]] IH]; try reflexivity.
  change (rev (a :: b :: c :: rest)) with (((rev rest ++ [c]) ++ [b]) ++ [a]).
  rewrite <- !app_assoc. cbn [app].
  rewrite type_changes_join.
  replace (rev rest ++ [c; b]) with (rev (b :: c :: rest))
    by (cbn [rev]; now rewrite <- app_assoc).
  rewrite IH, !type_changes_cons, type_changes_short.
  rewrite (connections_sym G c b Hwf), (connections_sym G b a Hwf), is_transfer_sym. lia.
Qed.

(** X9.  In a built network the two metrics do not depend on the direction
    in which a path is walked: on a path whose consecutive stations are
    adjacent, [_calculate_total_time] and [_count_transfers] return for the
    reversed path what they return for the path. *)
Theorem metrics_of_reversed_path :
  forall (ops : list operation) (path : list string),
    walk (network (build ops)) path ->
    _calculate_total_time (build ops) (rev path) = _calculate_total_time (build ops) path
    /\ _count_transfers (build ops) (rev path) = _count_transfers (build ops) path.
Proof.
  intros ops path Hw. pose proof (network_ok_build ops) as [Hwf _ _].
  pose proof (walk_rev _ _ Hwf Hw) as Hr.
  unfold _calculate_total_time, _count_transfers.
  rewrite !total_time_loop_walk, !transfers_loop_walk by assumption.
  now rewrite sum_of_least_times_rev, type_changes_rev.
Qed.

Lemma metrics_of_reversed_path_witness :
  _calculate_total_time (build sample_operations)
    (rev ["North"; "Ramsis_square"; "South"; "West"])
  = _calculate_total_time (build sample_operations)
      ["North"; "Ramsis_square"; "South"; "West"]
  /\ _count_transfers (build sample_operations)
       (rev ["North"; "Ramsis_square"; "South"; "West"])
     = _count_transfers (build sample_operations)
         ["North"; "Ramsis_square"; "South"; "West"].
Proof.
  apply metrics_of_reversed_path. vm_compute. repeat split; discriminate.
Defined.

(** ** The shape of the route found *)

Lemma meet_sides st w st' : meet st w = Ok st' -> fwd st' = fwd st /\ bwd st' = bwd st.
Proof.
  unfold meet. destruct (dict_mem (seen (fwd st)) w && dict_mem (seen (bwd st)) w).
  2:{ intros [= <-]. auto. }
  destruct (is_nil (finalpath st) || Qltb _ _).
  2:{ intros [= <-]. auto. }
  destruct (dict_item (paths (bwd st)) w); cbn [bind]; [|discriminate].
  destruct (dict_item (paths (fwd st)) w); cbn [bind]; [|discriminate].
  intros [= <-]. auto.
Qed.

Lemma is_nil_false {A : Type} (l : list A) : is_nil l = false -> l <> [].
Proof. destruct l; [discriminate|discriminate]. Qed.

Lemma meet_route source target st w st' :
  meet st w = Ok st' ->
  (forall d, trail_ok (origin source target d) (side st d)) ->
  (forall x, dict_mem (dists (fwd st)) x = true ->
             dict_mem (dists (bwd st)) x = true -> False) ->
  final_ok source target (finalpath st) ->
  (forall x, x <> w -> dict_mem (seen (fwd st)) x = true ->
             dict_mem (seen (bwd st)) x = true -> finalpath st <> []) ->
  route_ok source target st'.
Proof.
  intros H Hside Hapart Hfinal Hmet. unfold meet in H.
  destruct (dict_mem (seen (fwd st)) w && dict_mem (seen (bwd st)) w) eqn:Eboth.
  2:{ injection H as <-. constructor; auto.
      intros x H0 H1. destruct (String.eqb x w) eqn:E.
      - apply String.eqb_eq in E. subst x. rewrite H0, H1 in Eboth. discriminate.
      - apply String.eqb_neq in E. eauto. }
  destruct (is_nil (finalpath st) || Qltb _ _) eqn:Ebetter.
  2:{ injection H as <-. apply orb_false_iff in Ebetter. destruct Ebetter as [En _].
      constructor; auto. intros x _ _. now apply is_nil_false. }
  destruct (dict_item (paths (bwd st)) w) as [p1|] eqn:E1; cbn [bind] in H; [|discriminate].
  destruct (dict_item (paths (fwd st)) w) as [p0|] eqn:E0; cbn [bind] in H; [|discriminate].
  injection H as <-. apply dict_item_Ok in E0, E1.
  destruct (tr_paths _ _ (Hside Forward) _ _ E0) as [[r0 S0] [N0 [q0 [P0 D0]]]].
  destruct (tr_paths _ _ (Hside Backward) _ _ E1) as [[r1 S1] [N1 [q1 [P1 D1]]]].
  cbn [origin side] in *.
  assert (Htl : tl (rev p1) = rev q1).
  { rewrite P1, rev_app_distr. reflexivity. }
  assert (Hfin : starts_at source (p0 ++ rev q1) /\ ends_at target (p0 ++ rev q1)
                 /\ NoDup (p0 ++ rev q1)).
  { split; [|split].
    - exists (r0 ++ rev q1). now rewrite S0.
    - destruct q1 as [|z q1].
      + cbn [app] in P1. rewrite P1 in S1. injection S1 as -> _.
        exists q0. cbn [rev]. now rewrite app_nil_r.
      + rewrite P1 in S1. cbn [app] in S1. injection S1 as -> _.
        exists (p0 ++ rev q1). cbn [rev]. now rewrite app_assoc.
    - apply NoDup_app; [assumption| |].
      + apply NoDup_rev. rewrite P1 in N1. eapply NoDup_app_remove_r. exact N1.
      + intros a Ha Hr. apply in_rev in Hr. rewrite P0 in Ha.
        apply in_app_or in Ha. destruct Ha as [Ha|[<-|[]]].
        * eapply Hapart; eauto.
        * rewrite P1 in N1. apply NoDup_remove_2 in N1. apply N1.
          rewrite app_nil_r. exact Hr. }
  constructor; cbn [fwd bwd finalpath]; rewrite ?Htl.
  - intros [|]; [apply (Hside Forward)|apply (Hside Backward)].
  - exact Hapart.
  - right. exact Hfin.
  - intros x _ _. rewrite S0. discriminate.
Qed.

Lemma relax_route weight source target dir v dist st w d st' :
  relax weight dir v dist st w d = Ok st' ->
  route_ok source target st ->
  dict_mem (dists (side st dir)) v = true ->
  route_ok source target st' /\ forall d0, dists (side st' d0) = dists (side st d0).
Proof.
  intros H Hok Hv. unfold relax in H.
  destruct (match dir with Forward => weight v w d | Backward => weight w v d end)
    as [[cost|]|]; cbn [bind] in H; [| |discriminate].
  2:{ injection H as <-. auto. }
  set (s := side st dir) in *.
  destruct (dict_mem (dists s) w) eqn:Ed.
  { destruct (Qltb _ _); [discriminate|]. injection H as <-. auto. }
  destruct (negb (dict_mem (seen s) w) || Qltb _ _).
  2:{ injection H as <-. auto. }
  destruct (dict_item (paths s) v) as [pv|] eqn:Epv; cbn [bind] in H; [|discriminate].
  apply dict_item_Ok in Epv.
  destruct Hok as [Hside Hapart Hfinal Hmet].
  set (s' := mkSide (dists s) (dict_set (paths s) w (pv ++ [w]))
                    (heappush (fringe s) ((dist + cost)%Q, counter st, w))
                    (dict_set (seen s) w (dist + cost)%Q)) in *.
  assert (Hs' : trail_ok (origin source target dir) s').
  { pose proof (Hside dir) as [T1 T2 T3]. fold s in T1, T2, T3.
    constructor; unfold s'; cbn [dists paths fringe seen heappush].
    - intros x p. rewrite dict_get_set. destruct (String.eqb x w) eqn:E; [|apply T1].
      apply String.eqb_eq in E. subst x. intros [= <-].
      destruct (T1 _ _ Epv) as [[r Sv] [Nv [q [Pv Dv]]]].
      assert (Hin : forall y, In y pv -> dict_mem (dists s) y = true).
      { intros y Hy. rewrite Pv in Hy. apply in_app_or in Hy.
        destruct Hy as [Hy|[<-|[]]]; [now apply Dv|exact Hv]. }
      split; [exists (r ++ [w]); now rewrite Sv|]. split.
      + apply NoDup_app; [assumption|repeat constructor; intros []|].
        intros a Ha [<-|[]]. apply Hin in Ha. congruence.
      + exists pv. split; [reflexivity|exact Hin].
    - intros e [<-|He]; cbn; rewrite dict_mem_set.
      + now rewrite String.eqb_refl.
      + rewrite T2 by assumption. apply orb_true_r.
    - intros x Hx. rewrite dict_mem_set, T3 by assumption. apply orb_true_r. }
  assert (Hd : forall d0, dists (side (advance st dir s') d0) = dists (side st d0)).
  { intros d0. destruct (side_cases dir d0) as [-> | ->].
    - now rewrite side_advance.
    - now rewrite side_advance_flip. }
  assert (Hseen : forall d0 x, x <> w ->
            dict_mem (seen (side (advance st dir s') d0)) x = true ->
            dict_mem (seen (side st d0)) x = true).
  { intros d0 x Hx. destruct (side_cases dir d0) as [-> | ->].
    - rewrite side_advance. cbn. rewrite dict_mem_set.
      apply String.eqb_neq in Hx. now rewrite Hx.
    - now rewrite side_advance_flip. }
  destruct (meet_sides _ _ _ H) as [Hf Hb].
  split.
  - eapply meet_route; [exact H| | | |].
    + intros d0. destruct (side_cases dir d0) as [-> | ->].
      * now rewrite side_advance.
      * rewrite side_advance_flip. apply Hside.
    + intros x. pose proof (Hd Forward) as H0. pose proof (Hd Backward) as H1.
      cbn [side] in H0, H1. rewrite H0, H1. apply Hapart.
    + destruct dir; exact Hfinal.
    + intros x Hx H0 H1. replace (finalpath (advance st dir s')) with (finalpath st)
        by (destruct dir; reflexivity).
      apply (Hmet x); [apply (Hseen Forward x Hx H0)|apply (Hseen Backward x Hx H1)].
  - intros d0. rewrite <- Hd. destruct d0; cbn [side]; congruence.
Qed.

Lemma relax_all_route weight source target dir v dist items :
  forall st st',
    relax_all weight dir v dist items st = Ok st' ->
    route_ok source target st ->
    dict_mem (dists (side st dir)) v = true ->
    route_ok source target st'.
Proof.
  induction items as [|[w d] items IH]; intros st st' H Hok Hv; cbn [relax_all] in H.
  - now injection H as <-.
  - destruct (relax weight dir v dist st w d) as [st1|] eqn:E; cbn [bind] in H;
      [|discriminate].
    destruct (relax_route _ _ _ _ _ _ _ _ _ _ E Hok Hv) as [Hok1 Hd].
    eapply IH; [exact H|exact Hok1|]. now rewrite Hd.
Qed.

Lemma search_loop_route G weight source target budget :
  forall dir st p,
    search_loop G weight source target budget dir st = Ok p ->
    route_ok source target st ->
    starts_at source p /\ ends_at target p /\ NoDup p.
Proof.
  induction budget as [|b IH]; intros dir st p H Hok; [discriminate|].
  cbn [search_loop] in H.
  destruct (is_nil (fringe (fwd st)) || is_nil (fringe (bwd st))); [discriminate|].
  set (d := flip dir) in *. set (s := side st d) in *.
  destruct (heappop (fringe s)) as [[[[dist c] v] rest]|] eqn:Hpop; [|discriminate].
  destruct (heappop_spec _ _ _ Hpop) as [Hin _].
  assert (H0 : In (dist, c, v) (fringe s)) by (apply Hin; now left).
  pose proof Hok as [Hside Hapart Hfinal Hmet].
  pose proof (Hside d) as [T1 T2 T3]. fold s in T1, T2, T3.
  destruct (dict_mem (dists s) v) eqn:Ev.
  - eapply IH; [exact H|]. constructor.
    + intros d0. destruct (side_cases d d0) as [-> | ->].
      * rewrite side_set_side. constructor; cbn [dists paths fringe seen]; auto.
        intros e He. apply T2, Hin. now right.
      * rewrite side_set_side_flip. apply Hside.
    + destruct d; exact Hapart.
    + now rewrite finalpath_set_side.
    + rewrite finalpath_set_side. destruct d; exact Hmet.
  - set (s2 := mkSide (dict_set (dists s) v dist) (paths s) rest (seen s)) in *.
    set (st2 := set_side st d s2) in *.
    assert (Hother : side st2 (flip d) = side st (flip d)) by apply side_set_side_flip.
    assert (Hthis : side st2 d = s2) by apply side_set_side.
    assert (Hvseen : dict_mem (seen s) v = true) by apply (T2 _ H0).
    rewrite Hother in H.
    destruct (dict_mem (dists (side st (flip d))) v) eqn:Eo.
    + injection H as <-. unfold st2. rewrite finalpath_set_side.
      pose proof (tr_dists_seen _ _ (Hside (flip d)) _ Eo) as Hoseen.
      assert (Hne : finalpath st <> []).
      { subst s. destruct d; cbn [side flip] in *; eauto. }
      destruct Hfinal as [Hf|Hf]; [contradiction|exact Hf].
    + destruct (dict_item (_adj G) v) as [items|]; cbn [bind] in H; [|discriminate].
      destruct (relax_all weight d v dist items st2) as [st3|] eqn:E3; cbn [bind] in H;
        [|discriminate].
      eapply IH; [exact H|]. eapply relax_all_route; [exact E3| |].
      * constructor.
        -- intros d0. destruct (side_cases d d0) as [-> | ->].
           ++ rewrite Hthis. constructor; unfold s2; cbn [dists paths fringe seen].
              ** intros x p0 Hp. destruct (T1 _ _ Hp) as [S [N [q [P D]]]].
                 split; [assumption|]. split; [assumption|]. exists q.
                 split; [assumption|]. intros y Hy. rewrite dict_mem_set, D by assumption.
                 apply orb_true_r.
              ** intros e He. apply T2, Hin. now right.
              ** intros x. rewrite dict_mem_set. destruct (String.eqb x v) eqn:E.
                 --- apply String.eqb_eq in E. now subst x.
                 --- apply T3.
           ++ rewrite Hother. apply Hside.
        -- assert (Hd : forall x, dict_mem (dists (side st2 d)) x = true ->
                                  dict_mem (dists (side st2 (flip d))) x = true -> False).
           { intros x. rewrite Hthis, Hother. unfold s2. cbn [dists].
             rewrite dict_mem_set.
             destruct (String.eqb x v) eqn:E.
             - apply String.eqb_eq in E. subst x. intros _. congruence.
             - subst s. destruct d; cbn [side flip] in *; eauto. }
           destruct d; cbn [side flip] in Hd; eauto.
        -- unfold st2. now rewrite finalpath_set_side.
        -- unfold st2. rewrite finalpath_set_side.
           assert (Hs : forall d0, seen (side (set_side st d s2) d0) = seen (side st d0)).
           { intros d0. destruct (side_cases d d0) as [-> | ->].
             - now rewrite side_set_side.
             - now rewrite side_set_side_flip. }
           pose proof (Hs Forward) as X0. pose proof (Hs Backward) as X1.
           cbn [side] in X0, X1. rewrite X0, X1. exact Hmet.
      * rewrite Hthis. unfold s2. cbn [dists].
        now rewrite dict_mem_set, String.eqb_refl.
Qed.

Lemma initial_route_ok source target :
  source <> target -> route_ok source target (initial_state source target).
Proof.
  intros Hne.
  assert (Hside : forall o c, trail_ok o (mkSide [] [(o, [o])] [(0%Q, c, o)] [(o, 0%Q)])).
  { intros o c. constructor; cbn [dists paths fringe seen].
    - intros x p. simpl. destruct (String.eqb x o) eqn:E; [|discriminate].
      apply String.eqb_eq in E. subst x. intros [= <-].
      split; [now exists []|]. split; [repeat constructor; intros []|].
      exists []. split; [reflexivity|intros y []].
    - intros e [<-|[]]. unfold dict_mem. simpl. now rewrite String.eqb_refl.
    - intros x H. discriminate. }
  constructor.
  - intros [|]; apply Hside.
  - intros x H. discriminate.
  - now left.
  - intros x. unfold dict_mem. simpl.
    destruct (String.eqb x source) eqn:E0; [|discriminate].
    destruct (String.eqb x target) eqn:E1; [|discriminate].
    apply String.eqb_eq in E0, E1. congruence.
Qed.

(** X10.  Whenever [find_optimal_route] returns, on any network, the path
    starts at [start], ends at [end_], visits no station twice and moves
    between adjacent stations only. *)
Theorem route_shape :
  forall (T : Type) (self : TransportNetwork) (start end_ : string) (time : option T)
         (preferences : option (dict Q)) path total_time transfers,
    find_optimal_route self start end_ time preferences
      = Ok (path, total_time, transfers) ->
    starts_at start path /\ ends_at end_ path /\ NoDup path
    /\ walk (network self) path.
Proof.
  intros T self start end_ time preferences path total_time transfers H.
  assert (Hw : walk (network self) path).
  { apply find_optimal_route_Ok in H. destruct H as [H _].
    eapply total_time_loop_returns. exact H. }
  rewrite find_optimal_route_unfold in H.
  destruct (negb (has_node (network self) start) || negb (has_node (network self) end_));
    [discriminate|].
  destruct (bidirectional_dijkstra _ _ _ _) as [p|e] eqn:E; cbn [bind] in H.
  2:{ destruct e; discriminate. }
  assert (Hp : p = path).
  { destruct (_calculate_total_time self p); cbn [bind] in H; [|destruct e; discriminate].
    destruct (_count_transfers self p); cbn [bind] in H; [|destruct e; discriminate].
    now injection H. }
  subst p. unfold bidirectional_dijkstra in E.
  destruct (negb (has_node (network self) start) || negb (has_node (network self) end_));
    [discriminate|].
  destruct (String.eqb start end_) eqn:Ese.
  - apply String.eqb_eq in Ese. subst end_. injection E as <-.
    split; [now exists []|]. split; [now exists []|].
    split; [repeat constructor; intros []|assumption].
  - apply String.eqb_neq in Ese.
    destruct (search_loop_route _ _ _ _ _ _ _ _ E (initial_route_ok _ _ Ese)) as [A [B C]].
    auto.
Qed.

Lemma route_shape_witness :
  starts_at "North" ["North"; "Ramsis_square"; "South"; "West"]
  /\ ends_at "West" ["North"; "Ramsis_square"; "South"; "West"]
  /\ NoDup ["North"; "Ramsis_square"; "South"; "West"]
  /\ walk (network create_sample_network) ["North"; "Ramsis_square"; "South"; "West"].
Proof.
  apply (route_shape unit create_sample_network "North" "West" None None _ 66%Z 1%Z).
  vm_compute. reflexivity.
Defined.

(** ** Routing reads the adjacency only *)

Lemma adj_item_adj G G' u v : _adj G = _adj G' -> adj_item G u v = adj_item G' u v.
Proof. intros E. unfold adj_item. now rewrite E. Qed.

Lemma total_time_loop_adj G G' path acc :
  _adj G = _adj G' -> total_time_loop G path acc = total_time_loop G' path acc.
Proof.
  intros E. revert acc. induction path as [|u [|v rest] IH]; intros acc; try reflexivity.
  rewrite !total_time_loop_cons, (adj_item_adj G G' u v E).
  destruct (adj_item G' u v); cbn [bind]; [apply IH|reflexivity].
Qed.

Lemma transfers_loop_adj G G' path acc :
  _adj G = _adj G' -> transfers_loop G path acc = transfers_loop G' path acc.
Proof.
  intros E. revert acc. induction path as [|a [|b [|c rest]] IH]; intros acc;
    try reflexivity.
  rewrite !transfers_loop_cons, (adj_item_adj G G' a b E), (adj_item_adj G G' b c E).
  destruct (adj_item G' a b); cbn [bind]; [|reflexivity].
  destruct (adj_item G' b c); cbn [bind]; [apply IH|reflexivity].
Qed.

Lemma relax_weight weight weight' dir v dist st w d :
  (forall a b d, weight a b d = weight' a b d) ->
  relax weight dir v dist st w d = relax weight' dir v dist st w d.
Proof. intros E. unfold relax. destruct dir; now rewrite E. Qed.

Lemma relax_all_weight weight weight' dir v dist items :
  (forall a b d, weight a b d = weight' a b d) ->
  forall st, relax_all weight dir v dist items st = relax_all weight' dir v dist items st.
Proof.
  intros E. induction items as [|[w d] items IH]; intros st; [reflexivity|].
  cbn [relax_all]. rewrite (relax_weight weight weight' _ _ _ _ _ _ E).
  destruct (relax weight' dir v dist st w d); cbn [bind]; [apply IH|reflexivity].
Qed.

Lemma search_loop_adj G G' weight weight' source target :
  _adj G = _adj G' ->
  (forall a b d, weight a b d = weight' a b d) ->
  forall budget dir st,
    search_loop G weight source target budget dir st
    = search_loop G' weight' source target budget dir st.
Proof.
  intros E Ew. induction budget as [|b IH]; intros dir st; [reflexivity|].
  cbn [search_loop]. rewrite E.
  destruct (is_nil (fringe (fwd st)) || is_nil (fringe (bwd st))); [reflexivity|].
  destruct (heappop (fringe (side st (flip dir)))) as [[[[dist c] v] rest]|]; [|reflexivity].
  destruct (dict_mem (dists (side st (flip dir))) v); [apply IH|].
  destruct (dict_mem _ v); [reflexivity|].
  destruct (dict_item (_adj G') v) as [items|]; cbn [bind]; [|reflexivity].
  rewrite (relax_all_weight weight weight' _ _ _ _ Ew).
  destruct (relax_all weight' _ v dist items _); cbn [bind]; [apply IH|reflexivity].
Qed.

Lemma find_optimal_route_adj {T : Type} self self' start end_ (time : option T) preferences :
  _adj (network self) = _adj (network self') ->
  (forall x, has_node (network self) x = has_node (network self') x) ->
  find_optimal_route self start end_ time preferences
  = find_optimal_route self' start end_ time preferences.
Proof.
  intros E Hn. rewrite !find_optimal_route_unfold, !Hn.
  destruct (negb (has_node (network self') start) || negb (has_node (network self') end_));
    [reflexivity|].
  assert (Ew : forall a b d,
            route_weight self (effective_preferences preferences) a b d
            = route_weight self' (effective_preferences preferences) a b d).
  { intros a b d. unfold route_weight, weight_function.
    now rewrite (adj_item_adj _ _ a b E). }
  assert (Eb : bidirectional_dijkstra (network self)
                 (route_weight self (effective_preferences preferences)) start end_
               = bidirectional_dijkstra (network self')
                 (route_weight self' (effective_preferences preferences)) start end_).
  { unfold bidirectional_dijkstra. rewrite !Hn.
    destruct (negb (has_node (network self') start) || negb (has_node (network self') end_));
      [reflexivity|].
    destruct (String.eqb start end_); [reflexivity|].
    unfold search_budget, total_degree. rewrite E. now apply search_loop_adj. }
  rewrite Eb.
  destruct (bidirectional_dijkstra (network self')
              (route_weight self' (effective_preferences preferences)) start end_)
    as [p|e]; cbn [bind]; [|reflexivity].
  unfold _calculate_total_time, _count_transfers.
  rewrite (total_time_loop_adj _ _ p 0%Z E), (transfers_loop_adj _ _ p 0%Z E). reflexivity.
Qed.

(** X11.  Routing never reads the attributes of a station: adding again a
    station that is already in the network, with whatever capacity and
    coordinates, changes the outcome of no route query. *)
Theorem station_attributes_do_not_route :
  forall (T : Type) (self : TransportNetwork) (station_id : string) (cap : Z)
         (coords : option (Q * Q)) (rnd : Q * Q) (start end_ : string)
         (time : option T) (preferences : option (dict Q)),
    has_node (network self) station_id = true ->
    find_optimal_route (add_station self station_id cap coords rnd) start end_
                       time preferences
    = find_optimal_route self start end_ time preferences.
Proof.
  intros T self id cap coords rnd start end_ time preferences H.
  unfold has_node in H. apply find_optimal_route_adj.
  - unfold add_station, add_node. cbn [network _adj]. now rewrite H.
  - intros x. unfold add_station, add_node, has_node. cbn [network _node].
    rewrite dict_mem_set. destruct (String.eqb x id) eqn:E; [|reflexivity].
    apply String.eqb_eq in E. subst x. now rewrite H.
Qed.

Lemma station_attributes_do_not_route_witness :
  find_optimal_route (T:=unit) (add_station create_sample_network "North" 7 None (1, 1)%Q)
                     "West" "Airport" None None
  = find_optimal_route (T:=unit) create_sample_network "West" "Airport" None None.
Proof. apply station_attributes_do_not_route. vm_compute. reflexivity. Defined.

(** ** Routes exist in both directions *)



(** ** The highlighted edges of [visualize_network] *)

Lemma path_edges_cons u v rest :
  path_edges (u :: v :: rest) = (u, v) :: path_edges (v :: rest).
Proof. reflexivity. Qed.

(** X13.  The edges [visualize_network] highlights for a path are its hops,
    one fewer than its stations, and the path moves between adjacent
    stations exactly when every highlighted edge joins adjacent stations. *)
Theorem highlighted_edges_are_the_hops :
  forall (G : MultiGraph) (path : list string),
    List.length (path_edges path) = (List.length path - 1)%nat
    /\ (walk G path
        <-> forall u v, In (u, v) (path_edges path) -> edge_lookup G u v <> None).
Proof.
  intros G path. induction path as [|u [|v rest] [IHl IHw]].
  - split; [reflexivity|]. split; [intros _ u v []|intros _; exact I].
  - split; [reflexivity|]. split; [intros _ a b []|intros _; exact I].
  - rewrite path_edges_cons. split.
    + cbn [List.length] in *. lia.
    + cbn [walk]. fold (walk G (v :: rest)). rewrite IHw. split.
      * intros [Huv H] a b [Hab|Hab]; [injection Hab as <- <-; assumption|auto].
      * intros H. split; [apply H; now left|]. intros a b Hab. apply H. now right.
Qed.

(** ** The cost of paths *)

Section PathCost.
Variable G : MultiGraph.
Variable c : string -> string -> Q.
Hypothesis Hc0 : forall u v, (0 <= c u v)%Q.
Hypothesis Hcsym : forall u v, c u v = c v u.

Lemma path_cost_nonneg p : (0 <= path_cost c p)%Q.
Proof.
  induction p as [|u [|v rest] IH]; cbn [path_cost]; try lra.
  specialize (Hc0 u v). cbn [path_cost] in IH. lra.
Qed.

Lemma path_cost_join a x b :
  (path_cost c (a ++ x :: b) == path_cost c (a ++ [x]) + path_cost c (x :: b))%Q.
Proof.
  induction a as [|u a IH].
  - cbn [app path_cost]. lra.
  - destruct a as [|w a].
    + cbn [app path_cost]. lra.
    + cbn [app] in *. change (path_cost c (u :: w :: a ++ x :: b))
        with (c u w + path_cost c (w :: a ++ x :: b))%Q.
      change (path_cost c (u :: w :: a ++ [x]))
        with (c u w + path_cost c (w :: a ++ [x]))%Q.
      lra.
Qed.

Lemma path_cost_snoc q v w :
  (path_cost c ((q ++ [v]) ++ [w]) == path_cost c (q ++ [v]) + c v w)%Q.
Proof.
  rewrite <- app_assoc. cbn [app]. rewrite path_cost_join. cbn [path_cost]. lra.
Qed.

Lemma path_cost_rev p : (path_cost c (rev p) == path_cost c p)%Q.
Proof.
  induction p as [|u [|v rest] IH]; try reflexivity.
  change (rev (u :: v :: rest)) with (rev (v :: rest) ++ [u]).
  cbn [rev] in *. rewrite <- app_assoc. cbn [app].
  rewrite path_cost_join, IH.
  change (path_cost c (u :: v :: rest)) with (c u v + path_cost c (v :: rest))%Q.
  cbn [path_cost]. rewrite (Hcsym v u). lra.
Qed.

Lemma path_cost_prefix a x b : (path_cost c (a ++ [x]) <= path_cost c (a ++ x :: b))%Q.
Proof.
  rewrite (path_cost_join a x b). pose proof (path_cost_nonneg (x :: b)). lra.
Qed.

Lemma walk_prefix a x b : walk G (a ++ x :: b) -> walk G (a ++ [x]).
Proof.
  induction a as [|u a IH]; intros H; [exact I|].
  destruct a as [|w a].
  - cbn [app] in *. split; [apply H|exact I].
  - cbn [app] in *. destruct H as [Huw H]. split; [assumption|]. now apply IH.
Qed.

Lemma walk_suffix a x b : walk G (a ++ x :: b) -> walk G (x :: b).
Proof.
  induction a as [|u a IH]; intros H; [exact H|].
  apply IH. eapply walk_tail. exact H.
Qed.

Lemma walk_hop a u z b : walk G ((a ++ [u]) ++ z :: b) -> edge_lookup G u z <> None.
Proof.
  rewrite <- app_assoc. cbn [app]. intros H. apply walk_suffix in H. apply H.
Qed.

End PathCost.

Lemma first_outside (f : string -> bool) (p : list string) :
  (forall u, In u p -> f u = true)
  \/ exists pre z suf, p = pre ++ z :: suf
       /\ (forall u, In u pre -> f u = true) /\ f z = false.
Proof.
  induction p as [|x p [IH|[pre [z [suf [E [Hpre Hz]]]]]]].
  - left. intros u [].
  - destruct (f x) eqn:Ex.
    + left. intros u [<-|Hu]; auto.
    + right. exists [], x, p. split; [reflexivity|]. split; [intros u []|assumption].
  - destruct (f x) eqn:Ex.
    + right. exists (x :: pre), z, suf. split; [now rewrite E|].
      split; [|assumption]. intros u [<-|Hu]; auto.
    + right. exists [], x, p. split; [reflexivity|]. split; [intros u []|assumption].
Qed.

Lemma starts_at_app o a x b : starts_at o (a ++ x :: b) -> starts_at o (a ++ [x]).
Proof.
  intros [q E]. destruct a as [|u a]; cbn [app] in *.
  - injection E as -> _. now exists [].
  - injection E as -> _. now exists (a ++ [x]).
Qed.

Lemma ends_at_suffix t a x b : ends_at t (a ++ x :: b) -> ends_at t (x :: b).
Proof.
  intros [q E]. destruct (exists_last (l := x :: b)) as [q' [y E']]; [discriminate|].
  rewrite E' in E |- *. rewrite app_assoc in E. apply app_inj_tail in E.
  destruct E as [_ ->]. now exists q'.
Qed.

Lemma ends_at_rev o p : starts_at o p -> ends_at o (rev p).
Proof. intros [q ->]. exists (rev q). reflexivity. Qed.

Lemma starts_at_rev t p : ends_at t p -> starts_at t (rev p).
Proof. intros [q ->]. exists (rev q). now rewrite rev_app_distr. Qed.

(** ** The route found costs least *)

Section Optimal.
Variable G : MultiGraph.
Variable c : string -> string -> Q.
Variable weight : string -> string -> keydict -> result (option Q).
Variables source target : string.
Hypothesis Hwf : graph_wf G.
Hypothesis Hc0 : forall u v, (0 <= c u v)%Q.
Hypothesis Hcsym : forall u v, c u v = c v u.
Hypothesis Hweight : forall u v d, edge_lookup G u v <> None ->
  weight u v d = Ok (Some (c u v)).

Lemma lookup_item u z :
  edge_lookup G u z <> None ->
  exists items kd, dict_get (_adj G) u = Some items /\ In (z, kd) items.
Proof.
  unfold edge_lookup, adj_lookup. destruct (dict_get (_adj G) u) as [items|]; [|congruence].
  destruct (dict_get items z) as [kd|] eqn:E; [|congruence]. intros _.
  exists items, kd. split; [reflexivity|now apply dict_get_In].
Qed.

(** the first station of a walk that is not both settled and relaxed from
    has been seen, at no more than the cost of the walk up to it *)
Lemma escape o s (skip : string -> bool) pre z suf :
  dist_ok G c o s ->
  (forall x, skip x = false -> relaxed_from G c s x) ->
  walk G (pre ++ z :: suf) -> starts_at o (pre ++ z :: suf) ->
  (forall u, In u pre -> dict_mem (dists s) u && negb (skip u) = true) ->
  exists k, dict_get (seen s) z = Some k /\ (k <= path_cost c (pre ++ [z]))%Q.
Proof.
  intros Hs Hrel Hw Hst Hpre.
  destruct pre as [|u0 pre0] eqn:Epre.
  - destruct Hst as [q E]. cbn [app] in E. injection E as -> _.
    destruct (d_origin _ _ _ _ Hs) as [k [Hk Hk0]]. exists k. split; [assumption|].
    cbn [app path_cost]. exact Hk0.
  - destruct (exists_last (l := u0 :: pre0)) as [pre' [u E]]; [discriminate|].
    rewrite E in *. clear Epre E.
    assert (Hu : dict_mem (dists s) u && negb (skip u) = true).
    { apply Hpre. apply in_or_app. right. now left. }
    apply andb_true_iff in Hu. destruct Hu as [Hd Hsk]. apply negb_true_iff in Hsk.
    apply dict_mem_true in Hd. destruct Hd as [du Hdu].
    pose proof (walk_hop _ _ _ _ _ Hw) as Huz.
    destruct (lookup_item _ _ Huz) as [items [kd [Hi Hin]]].
    destruct (Hrel u Hsk du items z kd Hdu Hi Hin) as [k [Hk Hle]].
    exists k. split; [assumption|].
    assert (Hlow : (du <= path_cost c (pre' ++ [u]))%Q).
    { apply (d_lower _ _ _ _ Hs u du); [assumption| | |now exists pre'].
      - rewrite <- app_assoc in Hw. cbn [app] in Hw. eapply walk_prefix. exact Hw.
      - rewrite <- app_assoc in Hst. cbn [app] in Hst. eapply starts_at_app. exact Hst. }
    rewrite (path_cost_snoc c pre' u z). lra.
Qed.

(** a walk to a station that is not settled, or is still being relaxed
    from, costs at least as much as everything in the fringe *)
Lemma far o s (skip : string -> bool) (B : Q) p y :
  dist_ok G c o s ->
  (forall x, skip x = false -> relaxed_from G c s x) ->
  walk G p -> starts_at o p -> ends_at y p ->
  dict_mem (dists s) y && negb (skip y) = false ->
  (forall e, In e (fringe s) -> (B <= entry_dist e)%Q) ->
  (forall x k, skip x = true -> dict_get (seen s) x = Some k -> (B <= k)%Q) ->
  (B <= path_cost c p)%Q.
Proof.
  intros Hs Hrel Hw Hst [q Hy] Hout Hfr Hsk.
  destruct (first_outside (fun u => dict_mem (dists s) u && negb (skip u)) p)
    as [Hall|[pre [z [suf [E [Hpre Hz]]]]]].
  - rewrite Hall in Hout; [discriminate|]. rewrite Hy. apply in_or_app. right. now left.
  - rewrite E in Hw, Hst.
    destruct (escape o s skip pre z suf Hs Hrel Hw Hst Hpre) as [k [Hk Hle]].
    pose proof (path_cost_prefix c Hc0 pre z suf) as Hp. rewrite <- E in Hp.
    assert (HB : (B <= k)%Q).
    { destruct (skip z) eqn:Ez; [eapply Hsk; eassumption|].
      rewrite andb_false_iff in Hz. destruct Hz as [Hz|Hz]; [|discriminate].
      destruct (d_pending _ _ _ _ Hs z k Hk Hz) as [e [He [_ Hek]]].
      specialize (Hfr e He). lra. }
    lra.
Qed.

Lemma op_met_dir st busy dir w ka kb :
  opt_ok G c source target busy st ->
  dict_get (seen (side st dir)) w = Some ka ->
  dict_get (seen (side st (flip dir))) w = Some kb ->
  finalpath st <> [] /\ (finaldist st <= ka + kb)%Q.
Proof.
  intros Hok Ha Hb. destruct dir; cbn [side flip] in *.
  - eapply (op_met _ _ _ _ _ _ Hok); eassumption.
  - destruct (op_met _ _ _ _ _ _ Hok w kb ka Hb Ha) as [Hn Hle]. split; [assumption|lra].
Qed.

(** when a station is settled from both ends, no walk between the ends is
    cheaper than the best meeting recorded *)
Lemma meeting_is_optimal dir v dist st p :
  opt_ok G c source target (Some (dir, v)) st ->
  settled_at dir v dist st ->
  dict_mem (dists (side st (flip dir))) v = true ->
  walk G p ->
  starts_at (origin source target dir) p ->
  ends_at (origin source target (flip dir)) p ->
  finalpath st <> [] /\ (finaldist st <= path_cost c p)%Q.
Proof.
  intros Hok [Hdist Hbound Hfloor] Hvb Hw Hst Hen.
  pose proof (op_side _ _ _ _ _ _ Hok dir) as HA.
  pose proof (op_side _ _ _ _ _ _ Hok (flip dir)) as HB.
  set (a := origin source target dir) in *.
  set (b := origin source target (flip dir)) in *.
  set (sA := side st dir) in *. set (sB := side st (flip dir)) in *.
  assert (HrelA : forall x, String.eqb x v = false -> relaxed_from G c sA x).
  { intros x Hx. apply (op_relaxed _ _ _ _ _ _ Hok). intros [= ->].
    now rewrite String.eqb_refl in Hx. }
  assert (HrelB : forall x, (fun _ : string => false) x = false -> relaxed_from G c sB x).
  { intros x _. apply (op_relaxed _ _ _ _ _ _ Hok). intros [= Hd _].
    destruct dir; discriminate. }
  apply dict_mem_true in Hvb. destruct Hvb as [dvb Hdvb].
  destruct (d_settled _ _ _ _ HA v dist Hdist) as [kva [Hkva Ekva]].
  destruct (d_settled _ _ _ _ HB v dvb Hdvb) as [kvb [Hkvb Ekvb]].
  destruct (op_met_dir st _ dir v kva kvb Hok Hkva Hkvb) as [Hne Hv].
  split; [assumption|].
  destruct (first_outside (fun u => dict_mem (dists sA) u && negb (String.eqb u v)) p)
    as [Hall|[pre [y [suf [E [Hpre Hy]]]]]].
  - (* the whole walk is settled from the near end *)
    destruct Hen as [q Hq].
    assert (Hb : dict_mem (dists sA) b && negb (String.eqb b v) = true).
    { apply Hall. rewrite Hq. apply in_or_app. right. now left. }
    apply andb_true_iff in Hb. destruct Hb as [Hb _].
    apply dict_mem_true in Hb. destruct Hb as [db Hdb].
    destruct (d_settled _ _ _ _ HA b db Hdb) as [kba [Hkba Ekba]].
    destruct (d_origin _ _ _ _ HB) as [kbb [Hkbb Ekbb]]. fold b in Hkbb.
    destruct (op_met_dir st _ dir b kba kbb Hok Hkba Hkbb) as [_ Hle].
    pose proof (d_lower _ _ _ _ HA b db p Hdb Hw Hst (ex_intro _ q Hq)). lra.
  - rewrite E in Hw, Hst, Hen.
    destruct (escape a sA (fun u => String.eqb u v) pre y suf HA HrelA Hw Hst Hpre)
      as [kya [Hkya Hlea]].
    pose proof (path_cost_join c pre y suf) as Hj. rewrite <- E in Hj.
    assert (Hsufw : walk G (rev (y :: suf))).
    { apply walk_rev; [assumption|]. eapply walk_suffix. exact Hw. }
    assert (Hsufs : starts_at b (rev (y :: suf))).
    { apply starts_at_rev. eapply ends_at_suffix. exact Hen. }
    assert (Hsufe : ends_at y (rev (y :: suf))) by (apply ends_at_rev; now exists suf).
    pose proof (path_cost_rev c Hcsym (y :: suf)) as Hrev.
    destruct (dict_get (dists sB) y) as [dyb|] eqn:Eyb.
    + (* the walk leaves the near side at a station settled from the far end *)
      destruct (d_settled _ _ _ _ HB y dyb Eyb) as [kyb [Hkyb Ekyb]].
      destruct (op_met_dir st _ dir y kya kyb Hok Hkya Hkyb) as [_ Hle].
      pose proof (d_lower _ _ _ _ HB y dyb _ Eyb Hsufw Hsufs Hsufe). lra.
    + (* it leaves at a station settled from neither end *)
      assert (Hyv : String.eqb y v = false).
      { destruct (String.eqb y v) eqn:Eq; [|reflexivity].
        apply String.eqb_eq in Eq. subst y. congruence. }
      rewrite Hyv, andb_true_r in Hy.
      destruct (d_pending _ _ _ _ HA y kya Hkya Hy) as [e [He [_ Hek]]].
      specialize (Hfloor e He). fold sA in Hfloor.
      assert (Hfar : (dvb <= path_cost c (rev (y :: suf)))%Q).
      { apply (far b sB (fun _ => false) dvb _ y HB HrelB Hsufw Hsufs Hsufe).
        - unfold dict_mem. now rewrite Eyb.
        - intros e' He'. apply (d_below _ _ _ _ HB v dvb e' Hdvb He').
        - intros x k Hx. discriminate. }
      lra.
Qed.

Lemma meet_opt st w st' :
  meet st w = Ok st' ->
  (forall d, dist_ok G c (origin source target d) (side st d)) ->
  (forall x k0 k1, x <> w ->
     dict_get (seen (fwd st)) x = Some k0 -> dict_get (seen (bwd st)) x = Some k1 ->
     finalpath st <> [] /\ (finaldist st <= k0 + k1)%Q) ->
  (finalpath st <> [] -> (path_cost c (finalpath st) == finaldist st)%Q) ->
  (forall x k0 k1,
     dict_get (seen (fwd st')) x = Some k0 -> dict_get (seen (bwd st')) x = Some k1 ->
     finalpath st' <> [] /\ (finaldist st' <= k0 + k1)%Q)
  /\ (finalpath st' <> [] -> (path_cost c (finalpath st') == finaldist st')%Q).
Proof.
  intros H Hside Hmet Hfinal. unfold meet in H.
  destruct (dict_mem (seen (fwd st)) w && dict_mem (seen (bwd st)) w) eqn:Eboth.
  2:{ injection H as <-. split; [|assumption]. intros x k0 k1 H0 H1.
      destruct (String.eqb x w) eqn:E.
      - apply String.eqb_eq in E. subst x. unfold dict_mem in Eboth.
        rewrite H0, H1 in Eboth. discriminate.
      - apply String.eqb_neq in E. eauto. }
  apply andb_true_iff in Eboth. destruct Eboth as [E0 E1].
  apply dict_mem_true in E0, E1. destruct E0 as [k0 E0], E1 as [k1 E1].
  rewrite (get_or_get _ _ _ _ E0), (get_or_get _ _ _ _ E1) in H.
  assert (Hw : forall x kx0 kx1,
            dict_get (seen (fwd st)) x = Some kx0 -> dict_get (seen (bwd st)) x = Some kx1 ->
            x = w -> kx0 = k0 /\ kx1 = k1).
  { intros x kx0 kx1 H0 H1 ->. split; congruence. }
  destruct (is_nil (finalpath st) || Qltb (k0 + k1) (finaldist st)) eqn:Ebetter.
  2:{ injection H as <-. apply orb_false_iff in Ebetter. destruct Ebetter as [En Elt].
      apply is_nil_false in En. apply Qltb_ge in Elt.
      split; [|assumption]. intros x kx0 kx1 H0 H1.
      destruct (String.eqb x w) eqn:E.
      - apply String.eqb_eq in E. destruct (Hw _ _ _ H0 H1 E) as [-> ->]. auto.
      - apply String.eqb_neq in E. eauto. }
  destruct (dict_item (paths (bwd st)) w) as [p1|] eqn:P1; cbn [bind] in H; [|discriminate].
  destruct (dict_item (paths (fwd st)) w) as [p0|] eqn:P0; cbn [bind] in H; [|discriminate].
  injection H as <-. cbn [fwd bwd finalpath finaldist]. apply dict_item_Ok in P0, P1.
  destruct (d_paths _ _ _ _ (Hside Forward) w k0 p0 E0 P0) as [[q0 Q0] C0].
  destruct (d_paths _ _ _ _ (Hside Backward) w k1 p1 E1 P1) as [[q1 Q1] C1].
  assert (Hcost : (path_cost c (p0 ++ tl (rev p1)) == k0 + k1)%Q).
  { pose proof (path_cost_rev c Hcsym p1) as Hr.
    rewrite Q1, rev_app_distr in Hr |- *. cbn [rev app tl] in Hr |- *.
    rewrite Q0 in C0 |- *. rewrite <- app_assoc. cbn [app].
    rewrite (path_cost_join c q0 w (rev q1)). rewrite Q1 in C1. lra. }
  assert (Hne : p0 ++ tl (rev p1) <> []).
  { rewrite Q0. destruct q0; discriminate. }
  split; [|intros _; exact Hcost].
  intros x kx0 kx1 H0 H1. split; [assumption|].
  destruct (String.eqb x w) eqn:E.
  - apply String.eqb_eq in E. destruct (Hw _ _ _ H0 H1 E) as [-> ->]. lra.
  - apply String.eqb_neq in E. destruct (Hmet x kx0 kx1 E H0 H1) as [Hn Hle].
    apply orb_true_iff in Ebetter. destruct Ebetter as [En|Elt].
    + destruct (finalpath st); [contradiction|discriminate].
    + apply Qltb_lt in Elt. lra.
Qed.

Lemma dist_ok_relaxed o s v w dist cnt pv :
  dist_ok G c o s ->
  dict_get (dists s) v = Some dist ->
  (forall x dx, dict_get (dists s) x = Some dx -> (dx <= dist)%Q) ->
  dict_mem (dists s) w = false ->
  negb (dict_mem (seen s) w) || Qltb (dist + c v w) (get_or (seen s) w 0) = true ->
  dict_get (paths s) v = Some pv ->
  dist_ok G c o (mkSide (dists s) (dict_set (paths s) w (pv ++ [w]))
                        (heappush (fringe s) ((dist + c v w)%Q, cnt, w))
                        (dict_set (seen s) w (dist + c v w)%Q)).
Proof.
  intros [D1 D2 D3 D4 D5 D6 D7] Hv Hbound Hw Hcond Hpv.
  assert (Hnew : forall k, dict_get (seen s) w = Some k -> (dist + c v w < k)%Q).
  { intros k Hk. unfold dict_mem in Hcond. rewrite Hk in Hcond. cbn [negb orb] in Hcond.
    rewrite (get_or_get _ _ _ _ Hk) in Hcond. now apply Qltb_lt. }
  pose proof (Hc0 v w) as Hcvw.
  constructor; cbn [dists paths fringe seen heappush].
  - intros e [<-|He].
    + cbn. rewrite dict_get_set, String.eqb_refl. eexists. split; [reflexivity|lra].
    + destruct (D1 e He) as [k [Hk Hle]]. rewrite dict_get_set.
      destruct (String.eqb (entry_node e) w) eqn:E.
      * apply String.eqb_eq in E. rewrite E in Hk. specialize (Hnew k Hk).
        eexists. split; [reflexivity|lra].
      * eauto.
  - intros x k. rewrite dict_get_set. destruct (String.eqb x w) eqn:E.
    + apply String.eqb_eq in E. subst x. intros [= <-] _.
      eexists. split; [left; reflexivity|]. split; [reflexivity|]. cbn. lra.
    + intros Hk Hx. destruct (D2 x k Hk Hx) as [e [He Hek]]. exists e. split; [now right|auto].
  - intros x dx Hx. rewrite dict_get_set. destruct (String.eqb x w) eqn:E.
    + apply String.eqb_eq in E. subst x. unfold dict_mem in Hw. rewrite Hx in Hw.
      discriminate.
    + auto.
  - exact D4.
  - intros x dx e Hx [<-|He]; [|eauto]. cbn. specialize (Hbound x dx Hx). lra.
  - destruct D6 as [k [Hk Hk0]]. rewrite dict_get_set. destruct (String.eqb o w) eqn:E.
    + apply String.eqb_eq in E. subst w. specialize (Hnew k Hk).
      eexists. split; [reflexivity|lra].
    + eauto.
  - intros x k p. rewrite !dict_get_set. destruct (String.eqb x w) eqn:E; [|apply D7].
    apply String.eqb_eq in E. subst x. intros [= <-] [= <-].
    split; [now exists pv|].
    destruct (D3 v dist Hv) as [kv [Hkv Ekv]].
    destruct (D7 v kv pv Hkv Hpv) as [[q Hq] Cq].
    rewrite Hq in Cq |- *. rewrite (path_cost_snoc c q v w). lra.
Qed.

Lemma relaxed_from_mono s s' x :
  dists s' = dists s ->
  (forall y k, dict_get (seen s) y = Some k ->
     exists k', dict_get (seen s') y = Some k' /\ (k' <= k)%Q) ->
  relaxed_from G c s x -> relaxed_from G c s' x.
Proof.
  intros Hd Hmono Hrel dx items w d Hx Hi Hin. rewrite Hd in Hx.
  destruct (Hrel dx items w d Hx Hi Hin) as [k [Hk Hle]].
  destruct (Hmono w k Hk) as [k' [Hk' Hle']]. exists k'. split; [assumption|lra].
Qed.

Lemma relax_opt dir v dist st w d st' :
  relax weight dir v dist st w d = Ok st' ->
  edge_lookup G v w <> None ->
  opt_ok G c source target (Some (dir, v)) st ->
  settled_at dir v dist st ->
  opt_ok G c source target (Some (dir, v)) st'
  /\ settled_at dir v dist st'
  /\ (forall x k, dict_get (seen (side st dir)) x = Some k ->
        exists k', dict_get (seen (side st' dir)) x = Some k' /\ (k' <= k)%Q)
  /\ exists k, dict_get (seen (side st' dir)) w = Some k /\ (k <= dist + c v w)%Q.
Proof.
  intros H Hvw Hok Hsa.
  assert (Hcost : match dir with
                  | Forward => weight v w d
                  | Backward => weight w v d
                  end = Ok (Some (c v w))).
  { destruct dir; [now apply Hweight|].
    rewrite (Hcsym v w). apply Hweight. now apply lookup_sym. }
  unfold relax in H. rewrite Hcost in H. cbn [bind] in H.
  pose proof Hok as [Hside Hrel Hmet Hfinal]. pose proof Hsa as [Hd Hb Hf].
  pose proof (Hside dir) as Hs.
  set (s := side st dir) in *.
  assert (Hrefl : forall x k, dict_get (seen s) x = Some k ->
            exists k', dict_get (seen s) x = Some k' /\ (k' <= k)%Q).
  { intros x k Hk. exists k. split; [assumption|lra]. }
  destruct (dict_mem (dists s) w) eqn:Ed.
  { apply dict_mem_true in Ed. destruct Ed as [dw Hdw].
    rewrite (get_or_get _ _ _ _ Hdw) in H.
    destruct (Qltb (dist + c v w) dw) eqn:Elt; [discriminate|].
    injection H as <-. apply Qltb_ge in Elt.
    split; [assumption|]. split; [assumption|]. split; [exact Hrefl|].
    destruct (d_settled _ _ _ _ Hs w dw Hdw) as [k [Hk Ek]].
    exists k. split; [assumption|lra]. }
  destruct (negb (dict_mem (seen s) w) || Qltb (dist + c v w) (get_or (seen s) w 0))
    eqn:Econd.
  2:{ injection H as <-. apply orb_false_iff in Econd. destruct Econd as [Ein Elt].
      apply negb_false_iff in Ein. apply dict_mem_true in Ein. destruct Ein as [k Hk].
      rewrite (get_or_get _ _ _ _ Hk) in Elt. apply Qltb_ge in Elt.
      split; [assumption|]. split; [assumption|]. split; [exact Hrefl|].
      exists k. split; [assumption|lra]. }
  destruct (dict_item (paths s) v) as [pv|] eqn:Epv; cbn [bind] in H; [|discriminate].
  apply dict_item_Ok in Epv.
  set (s' := mkSide (dists s) (dict_set (paths s) w (pv ++ [w]))
                    (heappush (fringe s) ((dist + c v w)%Q, counter st, w))
                    (dict_set (seen s) w (dist + c v w)%Q)) in *.
  assert (Hs' : dist_ok G c (origin source target dir) s').
  { apply dist_ok_relaxed; assumption. }
  assert (Hnew : forall k, dict_get (seen s) w = Some k -> (dist + c v w < k)%Q).
  { intros k Hk. unfold dict_mem in Econd. rewrite Hk in Econd. cbn [negb orb] in Econd.
    rewrite (get_or_get _ _ _ _ Hk) in Econd. now apply Qltb_lt. }
  assert (Hmono : forall x k, dict_get (seen s) x = Some k ->
            exists k', dict_get (seen s') x = Some k' /\ (k' <= k)%Q).
  { intros x k Hk. unfold s'. cbn [seen]. rewrite dict_get_set.
    destruct (String.eqb x w) eqn:E.
    - apply String.eqb_eq in E. subst x. specialize (Hnew k Hk).
      eexists. split; [reflexivity|lra].
    - exists k. split; [assumption|lra]. }
  set (adv := advance st dir s') in *.
  assert (Hadv : side adv dir = s') by apply side_advance.
  assert (Hadvo : side adv (flip dir) = side st (flip dir)) by apply side_advance_flip.
  assert (Hsides : forall d0, dist_ok G c (origin source target d0) (side adv d0)).
  { intros d0. destruct (side_cases dir d0) as [-> | ->].
    - now rewrite Hadv.
    - rewrite Hadvo. apply Hside. }
  assert (Hold : forall d0 x k, x <> w -> dict_get (seen (side adv d0)) x = Some k ->
                   dict_get (seen (side st d0)) x = Some k).
  { intros d0 x k Hx. destruct (side_cases dir d0) as [-> | ->].
    - rewrite Hadv. unfold s'. cbn [seen]. rewrite dict_get_set.
      apply String.eqb_neq in Hx. now rewrite Hx.
    - now rewrite Hadvo. }
  destruct (meet_sides _ _ _ H) as [Hfw Hbw].
  assert (Hst' : forall d0, side st' d0 = side adv d0).
  { intros [|]; cbn [side]; assumption. }
  destruct (meet_opt adv w st' H Hsides) as [Hmet' Hfinal'].
  { intros x k0 k1 Hx H0 H1.
    replace (finalpath adv) with (finalpath st) by (unfold adv; destruct dir; reflexivity).
    replace (finaldist adv) with (finaldist st) by (unfold adv; destruct dir; reflexivity).
    apply (Hmet x); [apply (Hold Forward x k0 Hx H0)|apply (Hold Backward x k1 Hx H1)]. }
  { replace (finalpath adv) with (finalpath st) by (unfold adv; destruct dir; reflexivity).
    replace (finaldist adv) with (finaldist st) by (unfold adv; destruct dir; reflexivity).
    exact Hfinal. }
  split; [|split; [|split]].
  - constructor; [| |exact Hmet'|exact Hfinal'].
    + intros d0. rewrite Hst'. apply Hsides.
    + intros d0 x Hbusy. rewrite Hst'.
      destruct (side_cases dir d0) as [-> | ->].
      * rewrite Hadv. apply (relaxed_from_mono s s'); [reflexivity|exact Hmono|].
        now apply Hrel.
      * rewrite Hadvo. now apply Hrel.
  - constructor; rewrite Hst', Hadv; unfold s'; cbn [dists fringe heappush];
      [assumption|assumption|].
    intros e [<-|He]; [|auto]. cbn. pose proof (Hc0 v w). lra.
  - rewrite Hst', Hadv. exact Hmono.
  - rewrite Hst', Hadv. unfold s'. cbn [seen]. rewrite dict_get_set, String.eqb_refl.
    eexists. split; [reflexivity|lra].
Qed.

Lemma relax_all_opt dir v dist items :
  forall st st',
    relax_all weight dir v dist items st = Ok st' ->
    (forall w d, In (w, d) items -> edge_lookup G v w <> None) ->
    opt_ok G c source target (Some (dir, v)) st ->
    settled_at dir v dist st ->
    opt_ok G c source target (Some (dir, v)) st'
    /\ settled_at dir v dist st'
    /\ (forall x k, dict_get (seen (side st dir)) x = Some k ->
          exists k', dict_get (seen (side st' dir)) x = Some k' /\ (k' <= k)%Q)
    /\ (forall w d, In (w, d) items ->
          exists k, dict_get (seen (side st' dir)) w = Some k /\ (k <= dist + c v w)%Q).
Proof.
  induction items as [|[w d] items IH]; intros st st' H Hadj Hok Hsa; cbn [relax_all] in H.
  - injection H as <-. split; [assumption|]. split; [assumption|]. split.
    + intros x k Hk. exists k. split; [assumption|lra].
    + intros w d [].
  - destruct (relax weight dir v dist st w d) as [st1|] eqn:E; cbn [bind] in H;
      [|discriminate].
    destruct (relax_opt _ _ _ _ _ _ _ E (Hadj w d (or_introl eq_refl)) Hok Hsa)
      as [Hok1 [Hsa1 [Hm1 [k1 [Hk1 Hle1]]]]].
    destruct (IH st1 st' H (fun w' d' Hin => Hadj w' d' (or_intror Hin)) Hok1 Hsa1)
      as [Hok2 [Hsa2 [Hm2 Hall2]]].
    split; [assumption|]. split; [assumption|]. split.
    + intros x k Hk. destruct (Hm1 x k Hk) as [k' [Hk' Hle']].
      destruct (Hm2 x k' Hk') as [k'' [Hk'' Hle'']]. exists k''. split; [assumption|lra].
    + intros w' d' [Heq|Hin]; [|eauto]. injection Heq as <- <-.
      destruct (Hm2 w k1 Hk1) as [k' [Hk' Hle']]. exists k'. split; [assumption|lra].
Qed.

Lemma dist_ok_pop o s dist cnt v rest :
  dist_ok G c o s ->
  (forall e, In e (fringe s) <-> e = (dist, cnt, v) \/ In e rest) ->
  dict_mem (dists s) v = true ->
  dist_ok G c o (mkSide (dists s) (paths s) rest (seen s)).
Proof.
  intros [D1 D2 D3 D4 D5 D6 D7] Hin Hv.
  constructor; cbn [dists paths fringe seen]; auto.
  - intros e He. apply D1, Hin. now right.
  - intros x k Hk Hx. destruct (D2 x k Hk Hx) as [e [He [Hn Hek]]].
    apply Hin in He. destruct He as [->|He].
    + cbn in Hn. subst x. congruence.
    + exists e. auto.
  - intros x dx e Hx He. eapply D5; [eassumption|]. apply Hin. now right.
Qed.

Lemma dist_ok_settle o s dist cnt v rest :
  dist_ok G c o s ->
  (forall x, relaxed_from G c s x) ->
  (forall e, In e (fringe s) <-> e = (dist, cnt, v) \/ In e rest) ->
  (forall e, In e rest -> (dist <= entry_dist e)%Q) ->
  dict_mem (dists s) v = false ->
  dist_ok G c o (mkSide (dict_set (dists s) v dist) (paths s) rest (seen s)).
Proof.
  intros Hs Hrel Hin Hmin Hv. pose proof Hs as [D1 D2 D3 D4 D5 D6 D7].
  assert (H0 : In (dist, cnt, v) (fringe s)) by (apply Hin; now left).
  assert (Hall : forall e, In e (fringe s) -> (dist <= entry_dist e)%Q).
  { intros e He. apply Hin in He. destruct He as [->|He]; [cbn; lra|auto]. }
  constructor; cbn [dists paths fringe seen]; auto.
  - intros e He. apply D1, Hin. now right.
  - intros x k Hk. rewrite dict_mem_set. intros Hx. apply orb_false_iff in Hx.
    destruct Hx as [Hxv Hx]. destruct (D2 x k Hk Hx) as [e [He [Hn Hek]]].
    apply Hin in He. destruct He as [->|He].
    + cbn in Hn. subst x. now rewrite String.eqb_refl in Hxv.
    + exists e. auto.
  - intros x dx. rewrite dict_get_set. destruct (String.eqb x v) eqn:E; [|apply D3].
    apply String.eqb_eq in E. subst x. intros [= <-].
    destruct (D1 _ H0) as [k [Hk Hle]]. cbn in Hk, Hle.
    destruct (D2 v k Hk Hv) as [e [He [_ Hek]]]. specialize (Hall e He).
    exists k. split; [assumption|lra].
  - intros x dx p. rewrite dict_get_set. destruct (String.eqb x v) eqn:E; [|apply D4].
    apply String.eqb_eq in E. subst x. intros [= <-] Hw Hst Hen.
    apply (far o s (fun _ => false) dist p v Hs); auto.
    + now rewrite Hv.
    + intros x k Hx. discriminate.
  - intros x dx e. rewrite dict_get_set. destruct (String.eqb x v).
    + intros [= <-] He. now apply Hmin.
    + intros Hx He. eapply D5; [eassumption|]. apply Hin. now right.
Qed.

Lemma search_loop_opt budget :
  forall dir st p,
    search_loop G weight source target budget dir st = Ok p ->
    opt_ok G c source target None st ->
    forall other, walk G other -> starts_at source other -> ends_at target other ->
      (path_cost c p <= path_cost c other)%Q.
Proof.
  induction budget as [|b IH]; intros dir st p H Hok other Hw Hst Hen; [discriminate|].
  cbn [search_loop] in H.
  destruct (is_nil (fringe (fwd st)) || is_nil (fringe (bwd st))); [discriminate|].
  set (d := flip dir) in *. set (s := side st d) in *.
  destruct (heappop (fringe s)) as [[[[dist cnt] v] rest]|] eqn:Hpop; [|discriminate].
  destruct (heappop_spec _ _ _ Hpop) as [Hin [Hmin _]]. cbn in Hmin.
  pose proof Hok as [Hside Hrel Hmet Hfinal].
  pose proof (Hside d) as Hs. fold s in Hs.
  assert (Hnone : forall d0 x, (None : option (direction * string)) <> Some (d0, x))
    by discriminate.
  destruct (dict_mem (dists s) v) eqn:Ev.
  - (* a stale entry *)
    eapply IH; [exact H| |exact Hw|exact Hst|exact Hen].
    set (s1 := mkSide (dists s) (paths s) rest (seen s)).
    assert (Hseen : forall d0, seen (side (set_side st d s1) d0) = seen (side st d0)).
    { intros d0. destruct (side_cases d d0) as [-> | ->].
      - now rewrite side_set_side.
      - now rewrite side_set_side_flip. }
    constructor.
    + intros d0. destruct (side_cases d d0) as [-> | ->].
      * rewrite side_set_side. eapply dist_ok_pop; eassumption.
      * rewrite side_set_side_flip. apply Hside.
    + intros d0 x _. destruct (side_cases d d0) as [-> | ->].
      * rewrite side_set_side. exact (Hrel d x (Hnone d x)).
      * rewrite side_set_side_flip. now apply Hrel.
    + pose proof (Hseen Forward) as X0. pose proof (Hseen Backward) as X1.
      cbn [side] in X0, X1. rewrite X0, X1, finalpath_set_side.
      replace (finaldist (set_side st d s1)) with (finaldist st) by (destruct d; reflexivity).
      exact Hmet.
    + rewrite finalpath_set_side.
      replace (finaldist (set_side st d s1)) with (finaldist st) by (destruct d; reflexivity).
      exact Hfinal.
  - (* [v] is settled *)
    set (s2 := mkSide (dict_set (dists s) v dist) (paths s) rest (seen s)) in *.
    set (st2 := set_side st d s2) in *.
    assert (Hother : side st2 (flip d) = side st (flip d)) by apply side_set_side_flip.
    assert (Hthis : side st2 d = s2) by apply side_set_side.
    assert (Hfp : finalpath st2 = finalpath st) by apply finalpath_set_side.
    assert (Hfd : finaldist st2 = finaldist st) by (unfold st2; destruct d; reflexivity).
    assert (H0 : In (dist, cnt, v) (fringe s)) by (apply Hin; now left).
    assert (Hs2 : dist_ok G c (origin source target d) s2).
    { eapply dist_ok_settle; try eassumption. intros x. exact (Hrel d x (Hnone d x)). }
    assert (Hok2 : opt_ok G c source target (Some (d, v)) st2).
    { constructor.
      - intros d0. destruct (side_cases d d0) as [-> | ->].
        + now rewrite Hthis.
        + rewrite Hother. apply Hside.
      - intros d0 x Hbusy. destruct (side_cases d d0) as [-> | ->].
        + rewrite Hthis. intros dx items w kd. unfold s2. cbn [dists seen].
          rewrite dict_get_set. destruct (String.eqb x v) eqn:E.
          * apply String.eqb_eq in E. subst x. congruence.
          * apply (Hrel d x (Hnone d x)).
        + rewrite Hother. now apply Hrel.
      - assert (Hseen : forall d0, seen (side st2 d0) = seen (side st d0)).
        { intros d0. destruct (side_cases d d0) as [-> | ->].
          - now rewrite Hthis.
          - now rewrite Hother. }
        pose proof (Hseen Forward) as X0. pose proof (Hseen Backward) as X1.
        cbn [side] in X0, X1. rewrite X0, X1, Hfp, Hfd. exact Hmet.
      - rewrite Hfp, Hfd. exact Hfinal. }
    assert (Hsa : settled_at d v dist st2).
    { constructor; rewrite Hthis; unfold s2; cbn [dists fringe].
      - now rewrite dict_get_set, String.eqb_refl.
      - intros x dx. rewrite dict_get_set. destruct (String.eqb x v).
        + intros [= <-]. lra.
        + intros Hx. apply (d_below _ _ _ _ Hs x dx _ Hx H0).
      - exact Hmin. }
    rewrite Hother in H.
    destruct (dict_mem (dists (side st (flip d))) v) eqn:Eo.
    + injection H as <-. rewrite <- Hother in Eo.
      assert (Hopt : forall q, walk G q -> starts_at (origin source target d) q ->
                ends_at (origin source target (flip d)) q ->
                (path_cost c (finalpath st2) <= path_cost c q)%Q).
      { intros q Hq Hqs Hqe.
        destruct (meeting_is_optimal d v dist st2 q Hok2 Hsa Eo Hq Hqs Hqe) as [Hne Hle].
        pose proof (op_final _ _ _ _ _ _ Hok2 Hne). lra. }
      destruct d; cbn [origin flip] in Hopt.
      * now apply Hopt.
      * rewrite <- (path_cost_rev c Hcsym other).
        apply Hopt; [now apply walk_rev|now apply starts_at_rev|now apply ends_at_rev].
    + destruct (dict_item (_adj G) v) as [items|] eqn:Ei; cbn [bind] in H; [|discriminate].
      apply dict_item_Ok in Ei.
      destruct (relax_all weight d v dist items st2) as [st3|] eqn:E3; cbn [bind] in H;
        [|discriminate].
      destruct (relax_all_opt d v dist items st2 st3 E3) as [Hok3 [Hsa3 [_ Hall]]];
        [|assumption|assumption|].
      { intros w kd. now apply items_adjacent. }
      eapply IH; [exact H| |exact Hw|exact Hst|exact Hen].
      destruct Hok3 as [Hside3 Hrel3 Hmet3 Hfinal3].
      constructor; try assumption.
      intros d0 x _. destruct (side_cases d d0) as [-> | ->].
      * destruct (String.eqb x v) eqn:E.
        -- apply String.eqb_eq in E. subst x. intros dx items' w kd Hx Hi Hin'.
           rewrite (sa_dist _ _ _ _ Hsa3) in Hx. injection Hx as <-.
           rewrite Ei in Hi. injection Hi as <-. eapply Hall. exact Hin'.
        -- apply Hrel3. intros [= ->]. now rewrite String.eqb_refl in E.
      * apply Hrel3. intros [= Hd _]. destruct d; discriminate.
Qed.

Lemma initial_opt_ok :
  source <> target -> opt_ok G c source target None (initial_state source target).
Proof.
  intros Hne.
  assert (Hside : forall o cnt,
            dist_ok G c o (mkSide [] [(o, [o])] [(0%Q, cnt, o)] [(o, 0%Q)])).
  { intros o cnt. constructor; cbn [dists paths fringe seen].
    - intros e [<-|[]]. cbn. rewrite String.eqb_refl. eexists. split; [reflexivity|lra].
    - intros x k. cbn. destruct (String.eqb x o) eqn:E; [|discriminate].
      apply String.eqb_eq in E. subst x. intros [= <-] _.
      eexists. split; [left; reflexivity|]. split; [reflexivity|]. cbn. lra.
    - intros x dx H. discriminate.
    - intros x dx p H. discriminate.
    - intros x dx e H. discriminate.
    - cbn. rewrite String.eqb_refl. eexists. split; [reflexivity|lra].
    - intros x k p. cbn. destruct (String.eqb x o) eqn:E; [|discriminate].
      apply String.eqb_eq in E. subst x. intros [= <-] [= <-].
      split; [now exists []|]. cbn. lra. }
  constructor.
  - intros [|]; apply Hside.
  - intros [|] x _ dx items w kd H; discriminate.
  - intros w k0 k1. cbn.
    destruct (String.eqb w source) eqn:E0; [|discriminate].
    destruct (String.eqb w target) eqn:E1; [|discriminate].
    apply String.eqb_eq in E0, E1. congruence.
  - intros H. now contradiction H.
Qed.

End Optimal.

Lemma hop_cost_nonneg self preferences u v :
  times_nonneg (network self) ->
  (forall t m, dict_get preferences t = Some m -> (0 <= m)%Q) ->
  (0 <= hop_cost self preferences u v)%Q.
Proof.
  intros Ht Hp. apply hop_weight_nonneg; [assumption|].
  intros e m He Hm. apply in_connections in He. destruct He as [kd [Hk He]].
  eapply Ht; eassumption.
Qed.

Lemma route_weight_cost self preferences u v d :
  edge_lookup (network self) u v <> None ->
  route_weight self preferences u v d = Ok (Some (hop_cost self preferences u v)).
Proof.
  intros H. unfold route_weight, weight_function, hop_cost.
  rewrite adj_item_Ok by assumption. reflexivity.
Qed.

Lemma find_optimal_route_least :
  forall (T : Type) (ops : list operation) (start end_ : string) (time : option T)
         (preferences : option (dict Q)) path total_time transfers,
    Forall time_nonneg ops -> prefs_nonneg preferences ->
    find_optimal_route (build ops) start end_ time preferences
      = Ok (path, total_time, transfers) ->
    forall other,
      walk (network (build ops)) other -> starts_at start other -> ends_at end_ other ->
      (route_cost (build ops) (effective_preferences preferences) path
       <= route_cost (build ops) (effective_preferences preferences) other)%Q.
Proof.
  intros T ops start end_ time preferences path total_time transfers Hops Hp H
         other Hw Hst Hen.
  pose proof (network_ok_build ops) as [Hwf _ _].
  pose proof (times_nonneg_build ops Hops) as Ht.
  assert (Hp' : forall t m, dict_get (effective_preferences preferences) t = Some m ->
                            (0 <= m)%Q).
  { destruct preferences; simpl; [exact Hp|apply default_preferences_nonneg]. }
  set (self := build ops) in *. set (prefs := effective_preferences preferences) in *.
  assert (Hc0 : forall u v, (0 <= hop_cost self prefs u v)%Q).
  { intros u v. now apply hop_cost_nonneg. }
  assert (Hcsym : forall u v, hop_cost self prefs u v = hop_cost self prefs v u).
  { intros u v. unfold hop_cost. now rewrite (connections_sym _ u v Hwf). }
  rewrite find_optimal_route_unfold in H.
  destruct (negb (has_node (network self) start) || negb (has_node (network self) end_));
    [discriminate|].
  fold prefs in H.
  destruct (bidirectional_dijkstra (network self) (route_weight self prefs) start end_)
    as [p|e] eqn:E; cbn [bind] in H.
  2:{ destruct e; discriminate. }
  assert (Hpath : p = path).
  { destruct (_calculate_total_time self p); cbn [bind] in H; [|destruct e; discriminate].
    destruct (_count_transfers self p); cbn [bind] in H; [|destruct e; discriminate].
    now injection H. }
  subst p. unfold bidirectional_dijkstra in E.
  destruct (negb (has_node (network self) start) || negb (has_node (network self) end_));
    [discriminate|].
  unfold route_cost.
  destruct (String.eqb start end_) eqn:Ese.
  - injection E as <-. cbn [path_cost]. now apply path_cost_nonneg.
  - apply String.eqb_neq in Ese.
    eapply (search_loop_opt (network self) (hop_cost self prefs) (route_weight self prefs)
              start end_ Hwf Hc0 Hcsym); try eassumption.
    + intros u v d Huv. now apply route_weight_cost.
    + now apply initial_opt_ok.
Qed.

Lemma prefs_get_integer preferences t :
  integer_multipliers preferences ->
  exists z, (0 <= z)%Z /\ prefs_get preferences t = inject_Z z.
Proof.
  intros H. unfold prefs_get. destruct (dict_get preferences t) as [m|] eqn:E.
  - exact (H t m E).
  - exists 1%Z. split; [lia|reflexivity].
Qed.

Lemma hop_weight_integer preferences kd :
  integer_multipliers preferences ->
  exists z, hop_weight preferences kd = inject_Z z.
Proof.
  intros H. destruct (hop_weight_min preferences kd) as [H0 H1].
  destruct (edge_weights preferences kd) as [|w ws] eqn:E.
  - exists 1%Z. now rewrite H0.
  - destruct H1 as [Hin _]; [discriminate|].
    rewrite <- E in Hin. apply edge_weights_In in Hin. destruct Hin as [e [_ He]].
    unfold connection_weight in He.
    destruct (transport_type e) as [t|]; [|discriminate].
    destruct (travel_time e) as [m|]; [|discriminate].
    injection He as He. rewrite <- He.
    destruct (prefs_get_integer preferences t H) as [z [_ ->]].
    exists (m * z)%Z. symmetry. apply inject_Z_mult.
Qed.

Lemma route_cost_integer self preferences path :
  integer_multipliers preferences ->
  exists z, route_cost self preferences path = inject_Z z.
Proof.
  intros H. unfold route_cost.
  induction path as [|u [|v rest] IH]; try (exists 0%Z; reflexivity).
  destruct IH as [z Hz]. cbn [path_cost]. cbn [path_cost] in Hz. rewrite Hz.
  unfold hop_cost at 1.
  destruct (hop_weight_integer preferences (connections (network self) u v) H) as [y ->].
  exists (y + z)%Z. symmetry. apply inject_Z_plus.
Qed.

(** X14.  With integer multipliers the route found costs least.  When
    every multiplier of the preferences is an integer that is not negative,
    the weights of the hops and their sums are integers, which Python
    computes without rounding; then, on a built network without negative
    travel times, the path [find_optimal_route] returns has the least
    weighted cost (the sum over its hops of the search weight of the hop)
    among all paths that lead from [start] to [end_] along adjacent
    stations. *)
Theorem route_costs_least :
  forall (T : Type) (ops : list operation) (start end_ : string) (time : option T)
         (preferences : dict Q) path total_time transfers,
    Forall time_nonneg ops -> integer_multipliers preferences ->
    find_optimal_route (build ops) start end_ time (Some preferences)
      = Ok (path, total_time, transfers) ->
    (forall other,
        walk (network (build ops)) other -> starts_at start other -> ends_at end_ other ->
        (route_cost (build ops) preferences path
         <= route_cost (build ops) preferences other)%Q)
    /\ (forall p, exists z, route_cost (build ops) preferences p = inject_Z z).
Proof.
  intros T ops start end_ time preferences path total_time transfers Hops Hp H.
  split.
  - intros other Hw Hs He.
    apply (find_optimal_route_least T ops start end_ time (Some preferences)
             path total_time transfers Hops); try assumption.
    intros t m Hm. destruct (Hp t m Hm) as [z [Hz ->]].
    unfold Qle. simpl. lia.
  - intros p. now apply route_cost_integer.
Qed.

Lemma route_costs_least_witness :
  (forall other,
      walk (network (build sample_operations)) other ->
      starts_at "North" other -> ends_at "West" other ->
      (route_cost (build sample_operations) integer_preferences
         ["North"; "Ramsis_square"; "Airport"; "West"]
       <= route_cost (build sample_operations) integer_preferences other)%Q)
  /\ (forall p, exists z,
         route_cost (build sample_operations) integer_preferences p = inject_Z z).
Proof.
  apply (route_costs_least unit sample_operations "North" "West" None
           integer_preferences ["North"; "Ramsis_square"; "Airport"; "West"] 70%Z 1%Z
           sample_times_nonneg).
  - intros t m. unfold integer_preferences. simpl.
    repeat (destruct (String.eqb t _);
            [intros [= <-]; eexists; (split; [|reflexivity]); lia|]).
    discriminate.
  - vm_compute. reflexivity.
Defined.

(** ** Neutral preferences: the least total time *)






